(** * ReelAutoScroll: a shallow embedding of the content script

    The repository ships two revisions of the same content script:
    [content.js] (v1.2, the ended event carries the video) and a second file
    (v1.3, visibility scan and voice command).  Both are embedded here, in the
    modules [V12] and [V13], over one model of the host page.

    The host page is a store of elements addressed by identifiers, listed in
    document order.  Pixel quantities read from bounding rectangles are
    numbers in double precision; [scrollHeight], [clientHeight] and
    [innerHeight] are integers.
    A run of a script function yields the list of requests it sends to the
    host (console lines, clicks, scroll requests, recognition starts) and
    tells whether it returned or threw. *)

From Stdlib Require Import ZArith NArith QArith Qminmax Lqa String Ascii List Lia.
Close Scope Q_scope.
From stdpp Require Import base gmap list strings.

Local Open Scope Z_scope.

(** ** Strings of the host: sequences of UTF-16 code units *)

Definition jsstring := list N.

Definition lit (s : string) : jsstring :=
  map N_of_ascii (list_ascii_of_string s).

Definition jsstring_eqb (a b : jsstring) : bool := bool_decide (a = b).

(** [isPrefixOf] and [includes] decide the substring match of the attribute
    selector [[aria-label*=...]]. *)
Fixpoint isPrefixOf (needle hay : jsstring) : bool :=
  match needle, hay with
  | [], _ => true
  | _ :: _, [] => false
  | a :: needle', b :: hay' => N.eqb a b && isPrefixOf needle' hay'
  end.

Fixpoint includes (needle hay : jsstring) : bool :=
  isPrefixOf needle hay ||
  match hay with
  | [] => false
  | _ :: hay' => includes needle hay'
  end.

(** White space and line terminators removed by [String.prototype.trim]. *)
Definition isTrimmable (u : N) : bool :=
  let u := Z.of_N u in
  (u =? 0x09) || (u =? 0x0A) || (u =? 0x0B) || (u =? 0x0C) || (u =? 0x0D) ||
  (u =? 0x20) || (u =? 0xA0) || (u =? 0x1680) ||
  ((0x2000 <=? u) && (u <=? 0x200A)) ||
  (u =? 0x2028) || (u =? 0x2029) || (u =? 0x202F) || (u =? 0x205F) ||
  (u =? 0x3000) || (u =? 0xFEFF).

Fixpoint trimStart (s : jsstring) : jsstring :=
  match s with
  | [] => []
  | u :: s' => if isTrimmable u then trimStart s' else s
  end.

Definition trimEnd (s : jsstring) : jsstring := rev (trimStart (rev s)).

Definition trim (s : jsstring) : jsstring := trimEnd (trimStart s).

(** Case mapping of [String.prototype.toLowerCase] on the Basic Latin block.
    Code units outside A..Z are kept: no code unit outside Basic Latin is
    mapped to one of n, e, x, t, which is all the script compares against. *)
Definition toLowerUnit (u : N) : N :=
  if ((65 <=? u) && (u <=? 90))%N then (u + 32)%N else u.

Definition toLowerCase (s : jsstring) : jsstring := map toLowerUnit s.

(** ** Numbers: double precision

    A number is NaN, an infinity, or a rational; the rationals that occur as
    results are doubles, since every arithmetic operation rounds its exact
    result to the nearest double, ties to even, and overflows to an
    infinity.  The sign of zero is not kept. *)

Inductive jsnum :=
| NaN
| PosInfinity
| NegInfinity
| Num (q : Q).

Definition Qltb (a b : Q) : bool :=
  (Qnum a * Z.pos (Qden b) <? Qnum b * Z.pos (Qden a)).

(** [m * 2^k] *)
Definition scale2 (m k : Z) : Q :=
  if 0 <=? k then inject_Z (m * 2 ^ k) else (m # Z.to_pos (2 ^ (- k))).

(** The integer nearest to [N / D], ties to even, for [0 < D]. *)
Definition roundHalfEven (N D : Z) : Z :=
  let m := N / D in
  match 2 * (N mod D) ?= D with
  | Lt => m
  | Gt => m + 1
  | Eq => if Z.even m then m else m + 1
  end.

(** The double nearest to [n / d]: 53 significant bits, exponent not below
    that of the subnormals, [2^1024] and beyond becoming an infinity. *)
Definition roundPos (n d : positive) : jsnum :=
  let e0 := Z.log2 (Z.pos n) - Z.log2 (Z.pos d) in
  let above :=
    if 0 <=? e0 then 2 ^ e0 * Z.pos d <=? Z.pos n
    else Z.pos d <=? Z.pos n * 2 ^ (- e0) in
  let e := if above then e0 else e0 - 1 in
  let k := Z.max e (-1022) - 52 in
  let m :=
    if 0 <=? k then roundHalfEven (Z.pos n) (Z.pos d * 2 ^ k)
    else roundHalfEven (Z.pos n * 2 ^ (- k)) (Z.pos d) in
  if (0 <=? k) && (2 ^ 1024 <=? m * 2 ^ k) then PosInfinity else Num (scale2 m k).

Definition jsneg (x : jsnum) : jsnum :=
  match x with
  | NaN => NaN
  | PosInfinity => NegInfinity
  | NegInfinity => PosInfinity
  | Num q => Num (- q)%Q
  end.

Definition roundDouble (q : Q) : jsnum :=
  match Qnum q with
  | Z0 => Num 0
  | Z.pos n => roundPos n (Qden q)
  | Z.neg n => jsneg (roundPos n (Qden q))
  end.

(** The double nearest to a decimal literal, for sample data. *)
Definition double (q : Q) : Q :=
  match roundDouble q with
  | Num x => Qred x
  | _ => 0%Q
  end.

(** [a + b]; adding zero is exact. *)
Definition jsadd (a b : jsnum) : jsnum :=
  match a, b with
  | NaN, _ | _, NaN => NaN
  | PosInfinity, NegInfinity | NegInfinity, PosInfinity => NaN
  | PosInfinity, _ | _, PosInfinity => PosInfinity
  | NegInfinity, _ | _, NegInfinity => NegInfinity
  | Num x, Num y =>
    if Qeq_bool y 0 then Num x
    else if Qeq_bool x 0 then Num y
    else roundDouble (x + y)%Q
  end.

(** [a - b]; subtracting zero is exact. *)
Definition jssub (a b : jsnum) : jsnum :=
  match a, b with
  | NaN, _ | _, NaN => NaN
  | PosInfinity, PosInfinity | NegInfinity, NegInfinity => NaN
  | PosInfinity, _ | _, NegInfinity => PosInfinity
  | NegInfinity, _ | _, PosInfinity => NegInfinity
  | Num x, Num y => if Qeq_bool y 0 then Num x else roundDouble (x - y)%Q
  end.

(** [a / b]: a zero divisor gives NaN or an infinity. *)
Definition jsdiv (a b : jsnum) : jsnum :=
  match a, b with
  | NaN, _ | _, NaN => NaN
  | (PosInfinity | NegInfinity), (PosInfinity | NegInfinity) => NaN
  | PosInfinity, Num y => if Qltb y 0 then NegInfinity else PosInfinity
  | NegInfinity, Num y => if Qltb y 0 then PosInfinity else NegInfinity
  | Num _, (PosInfinity | NegInfinity) => Num 0
  | Num x, Num y =>
    if Qeq_bool y 0 then
      if Qeq_bool x 0 then NaN
      else if Qltb 0 x then PosInfinity else NegInfinity
    else roundDouble (x / y)%Q
  end.

(** [x > y]: false as soon as one side is NaN. *)
Definition jsgt (x y : jsnum) : bool :=
  match x, y with
  | NaN, _ | _, NaN => false
  | PosInfinity, PosInfinity => false
  | PosInfinity, _ => true
  | _, PosInfinity => false
  | NegInfinity, _ => false
  | Num _, NegInfinity => true
  | Num a, Num b => Qltb b a
  end.

(** [Math.max] and [Math.min]: NaN as soon as one argument is NaN. *)
Definition jsmax (a b : jsnum) : jsnum :=
  match a, b with
  | NaN, _ | _, NaN => NaN
  | _, _ => if jsgt a b then a else b
  end.

Definition jsmin (a b : jsnum) : jsnum :=
  match a, b with
  | NaN, _ | _, NaN => NaN
  | _, _ => if jsgt b a then a else b
  end.

(** ** The page *)

(** A bounding rectangle as the platform keeps it: origin and height, with
    [top] and [bottom] derived. *)
Record DOMRect := { rect_y : Q; rect_height : Q }.

Definition rect_top (r : DOMRect) : jsnum :=
  jsmin (Num (rect_y r)) (jsadd (Num (rect_y r)) (Num (rect_height r))).
Definition rect_bottom (r : DOMRect) : jsnum :=
  jsmax (Num (rect_y r)) (jsadd (Num (rect_y r)) (Num (rect_height r))).

(** Callbacks registered for the ended event.  The named function
    [scrollToNextReel] is one object; every evaluation of the arrow function
    of v1.3 allocates a new one. *)
Inductive listener :=
| NamedScrollToNextReel
| ArrowClosure (n : nat).

Global Instance listener_eq_dec : EqDecision listener.
Proof. solve_decision. Defined.

(** [isHTMLElement] tells an HTML element, which has a [click()] method,
    from an SVG or MathML element, which has none. *)
Record element := {
  tagName : string;
  isHTMLElement : bool;
  ariaLabel : option jsstring;
  parentElement : option nat;
  getBoundingClientRect : DOMRect;
  scrollHeight : Z;
  clientHeight : Z;
  autoScrollListenerAttached : option jsstring;
  endedListeners : list listener
}.

(** The recognition object after configuration. *)
Record recognition := {
  continuous : bool;
  lang : string;
  interimResults : bool;
  maxAlternatives : Z
}.

Record page := {
  nodes : gmap nat element;
  order : list nat;
  innerHeight : Z;
  allocated : nat;
  hasSpeechRecognition : bool;
  hasWebkitSpeechRecognition : bool;
  startThrows : option string;
  session : option recognition
}.

(** ** Requests sent to the host *)

Inductive level := LogL | WarnL | ErrorL.

Inductive jsval :=
| VElem (i : nat)
| VNum (z : Z)
| VStr (s : jsstring)
| VErr (s : string).

(** A console call keeps its first string as written, the holes of a
    template literal included; the values filling the holes come first in
    [data], followed by the further arguments of the call. *)
Inductive effect :=
| Console (lvl : level) (text : string) (data : list jsval)
| Click (target : nat)
| ElementScrollBy (target : nat) (top left : Z) (behavior : string)
| WindowScrollBy (x y : Z)
| Observe (childList subtree : bool)
| RecognitionStart.

Inductive completion :=
| Normal
| Throw (e : string).

(** ** Queries *)

Definition elements (p : page) : list (nat * element) :=
  omap (fun i => (fun e => (i, e)) <$> nodes p !! i) (order p).

Definition NEXT_BUTTON_SELECTOR : jsstring := lit "Next".
Definition REEL_VIDEO_SELECTOR : string := "video".
Definition REELS_CONTAINER_SELECTOR : string := "main".

(** [[aria-label*=Next]] on one element. *)
Definition matchesNextButton (e : element) : bool :=
  match ariaLabel e with
  | Some l => includes NEXT_BUTTON_SELECTOR l
  | None => false
  end.

Definition matchesTag (tag : string) (e : element) : bool :=
  String.eqb (tagName e) tag.

(** [document.querySelector]: the first match in document order. *)
Definition querySelector (sel : element -> bool) (p : page) : option (nat * element) :=
  List.find (fun ie => sel (snd ie)) (elements p).

Definition querySelectorAll (sel : element -> bool) (p : page) : list (nat * element) :=
  List.filter (fun ie => sel (snd ie)) (elements p).

(** The ancestor walk shared by both revisions:
    [for (let i = 0; i < 15 && parent; i++)], leaving the loop with the
    first ancestor whose content overflows its box by more than 50 pixels. *)
Fixpoint walkUp (p : page) (budget : nat) (parent : option nat) : option (nat * element) :=
  match budget with
  | O => None
  | S budget' =>
    match parent with
    | None => None
    | Some i =>
      match nodes p !! i with
      | None => None
      | Some e =>
        if scrollHeight e >? clientHeight e + 50 then Some (i, e)
        else walkUp p budget' (parentElement e)
      end
    end
  end.

(** [root.querySelectorAll], for a [root] attached to the document: the
    matches below [root], in document order. *)
Fixpoint isBelow (p : page) (fuel : nat) (root : nat) (start : option nat) : bool :=
  match fuel with
  | O => false
  | S fuel' =>
    match start with
    | None => false
    | Some i =>
      Nat.eqb i root ||
      match nodes p !! i with
      | None => false
      | Some e => isBelow p fuel' root (parentElement e)
      end
    end
  end.

Definition querySelectorAllIn (sel : element -> bool) (root : nat) (p : page) : list (nat * element) :=
  List.filter
    (fun ie => sel (snd ie) && isBelow p (length (order p)) root (parentElement (snd ie)))
    (elements p).

(** ** Mutation records *)

Inductive addedNode :=
| ElementNode (i : nat)
| OtherNode.

Record MutationRecord := {
  mtype : string;
  addedNodes : list addedNode
}.

(** ** Script statements: page in, page, requests and completion out *)

Definition script := page -> page * list effect * completion.

Definition skip : script := fun p => (p, [], Normal).

Definition emit (e : effect) : script := fun p => (p, [e], Normal).

Definition throw (x : string) : script := fun p => (p, [], Throw x).

Definition seq (a b : script) : script := fun p =>
  let '(p1, t1, c1) := a p in
  match c1 with
  | Normal => let '(p2, t2, c2) := b p1 in (p2, t1 ++ t2, c2)
  | Throw x => (p1, t1, Throw x)
  end.

Declare Scope script_scope.
Delimit Scope script_scope with script.
Bind Scope script_scope with script.
Notation "a ;; b" := (seq a b) (at level 100, b at level 200, right associativity) : script_scope.
Local Open Scope script_scope.

Definition tryCatch (body : script) (handler : string -> script) : script := fun p =>
  let '(p1, t1, c1) := body p in
  match c1 with
  | Normal => (p1, t1, Normal)
  | Throw x => let '(p2, t2, c2) := handler x p1 in (p2, t1 ++ t2, c2)
  end.

(** A callback run by the host during a dispatch: an exception leaving it is
    reported by the host and the dispatch goes on. *)
Definition isolated (s : script) : script := fun p =>
  let '(p1, t1, _) := s p in (p1, t1, Normal).

Fixpoint forEach {A : Type} (f : A -> script) (l : list A) : script :=
  match l with
  | [] => skip
  | x :: l' => f x ;; forEach f l'
  end.

Definition trace (r : page * list effect * completion) : list effect := snd (fst r).
Definition final (r : page * list effect * completion) : page := fst (fst r).
Definition outcome (r : page * list effect * completion) : completion := snd r.

(** ** Element updates *)

(** [addEventListener]: a callback already in the list is not added again. *)
Definition addEventListener (l : listener) (ls : list listener) : list listener :=
  if bool_decide (l ∈ ls) then ls else ls ++ [l].

Definition wire (l : listener) (e : element) : element :=
  {| tagName := tagName e;
     isHTMLElement := isHTMLElement e;
     ariaLabel := ariaLabel e;
     parentElement := parentElement e;
     getBoundingClientRect := getBoundingClientRect e;
     scrollHeight := scrollHeight e;
     clientHeight := clientHeight e;
     autoScrollListenerAttached := Some (lit "true");
     endedListeners := addEventListener l (endedListeners e) |}.

Definition storeElement (i : nat) (e : element) (fresh : nat) (p : page) : page :=
  {| nodes := <[i := e]> (nodes p);
     order := order p;
     innerHeight := innerHeight p;
     allocated := fresh;
     hasSpeechRecognition := hasSpeechRecognition p;
     hasWebkitSpeechRecognition := hasWebkitSpeechRecognition p;
     startThrows := startThrows p;
     session := session p |}.

Definition storeSession (r : recognition) (p : page) : page :=
  {| nodes := nodes p;
     order := order p;
     innerHeight := innerHeight p;
     allocated := allocated p;
     hasSpeechRecognition := hasSpeechRecognition p;
     hasWebkitSpeechRecognition := hasWebkitSpeechRecognition p;
     startThrows := startThrows p;
     session := Some r |}.

(** Truthiness of a dataset entry: present and not the empty string. *)
Definition truthy (o : option jsstring) : bool :=
  match o with
  | Some (_ :: _) => true
  | _ => false
  end.

(** [element.click()]: only HTML elements have the method; calling it on
    another element throws. *)
Definition click (target : nat) (e : element) : script :=
  if isHTMLElement e then emit (Click target) else throw "TypeError".

Record event := { target : option nat }.

Definition dquote : string := String (ascii_of_nat 34) EmptyString.

(** ** content.js, version 1.2 *)

Module V12.

(** Line 42: the current video is the target of the ended event. *)
Definition currentVideo (ev : event) : option nat := target ev.

Definition scrollToNextReel (ev : event) : script := fun p =>
  (emit (Console LogL "Reel finished. Attempting smart scroll." []) ;;
   match querySelector matchesNextButton p with
   | Some (nextButton, button) =>
     emit (Console LogL "Success (Method 1): Found 'Next' button. Clicking it." [VElem nextButton]) ;;
     click nextButton button
   | None =>
     emit (Console WarnL "Could not find 'Next' button. Trying Method 2: Find and scroll container." []) ;;
     match currentVideo ev with
     | None => emit (Console ErrorL "Could not identify the video that ended." [])
     | Some video =>
       match walkUp p 15 (nodes p !! video ≫= parentElement) with
       | Some (c, scrollableContainer) =>
         let scrollAmount := clientHeight scrollableContainer in
         emit (Console LogL "Success (Method 2): Found scrollable container. Scrolling by ${scrollAmount}px."
                 [VNum scrollAmount; VElem c]) ;;
         emit (ElementScrollBy c scrollAmount 0 "smooth")
       | None =>
         emit (Console WarnL "Could not find scrollable container. Using Method 3: Final fallback scroll." []) ;;
         emit (WindowScrollBy 0 (innerHeight p))
       end
     end
   end) p.

Definition addListenerToVideo (videoElement : nat) : script := fun p =>
  match nodes p !! videoElement with
  | None => (p, [], Normal)
  | Some e =>
    if truthy (autoScrollListenerAttached e) then (p, [], Normal)
    else
      (storeElement videoElement (wire NamedScrollToNextReel e) (allocated p) p,
       [ Console LogL "Found a new Reel video. Attaching 'ended' event listener." [VElem videoElement] ],
       Normal)
  end.

Definition handleAddedNode (node : addedNode) : script := fun p =>
  match node with
  | ElementNode i =>
    match nodes p !! i with
    | None => (p, [], Normal)
    | Some e =>
      if matchesTag REEL_VIDEO_SELECTOR e then addListenerToVideo i p
      else forEach addListenerToVideo
             (map fst (querySelectorAllIn (matchesTag REEL_VIDEO_SELECTOR) i p)) p
    end
  | OtherNode => (p, [], Normal)
  end.

Definition handleMutation (mutation : MutationRecord) : script :=
  if String.eqb (mtype mutation) "childList" && (0 <? Z.of_nat (length (addedNodes mutation)))
  then forEach handleAddedNode (addedNodes mutation)
  else skip.

Definition handleDomChanges (mutationsList : list MutationRecord) : script :=
  forEach handleMutation mutationsList.

(** Line 7 and lines 115 to 128. *)
Definition main : script := fun p =>
  match querySelector (matchesTag REELS_CONTAINER_SELECTOR) p with
  | Some _ =>
    (emit (Console LogL "Instagram Auto-Reel Scroller v1.2: Content script loaded." []) ;;
     emit (Console LogL "Main container found. Initializing observer and performing initial scan." []) ;;
     emit (Observe true true) ;;
     forEach addListenerToVideo (map fst (querySelectorAll (matchesTag REEL_VIDEO_SELECTOR) p))) p
  | None =>
    (emit (Console LogL "Instagram Auto-Reel Scroller v1.2: Content script loaded." []) ;;
     emit (Console WarnL "Could not find main container on load. Will rely solely on MutationObserver." []) ;;
     emit (Observe true true)) p
  end.

(** The ended event of [video] reaches every callback registered on it;
    this revision registers only the named function. *)
Definition callListener (video : nat) (l : listener) : script :=
  match l with
  | NamedScrollToNextReel => isolated (scrollToNextReel {| target := Some video |})
  | ArrowClosure _ => skip
  end.

Definition dispatchEnded (video : nat) : script := fun p =>
  match nodes p !! video with
  | None => (p, [], Normal)
  | Some e => forEach (callListener video) (endedListeners e) p
  end.

End V12.

(** ** The second file, version 1.3 *)

Module V13.

(** Lines 41 to 48: one turn of the visibility scan. *)
Definition visibleHeight (innerH : Z) (rect : DOMRect) : jsnum :=
  jsmax (Num 0)
    (jssub (jsmin (rect_bottom rect) (Num (inject_Z innerH))) (jsmax (rect_top rect) (Num 0))).

Definition visibility (innerH : Z) (video : element) : jsnum :=
  let rect := getBoundingClientRect video in
  jsdiv (visibleHeight innerH rect) (Num (rect_height rect)).

Definition scanStep (innerH : Z) (acc : jsnum * option (nat * element))
    (video : nat * element) : jsnum * option (nat * element) :=
  let v := visibility innerH (snd video) in
  if jsgt v (fst acc) then (v, Some video) else acc.

Definition scan (innerH : Z) (videos : list (nat * element))
    (acc : jsnum * option (nat * element)) : jsnum * option (nat * element) :=
  fold_left (scanStep innerH) videos acc.

(** Lines 36 to 49. *)
Definition currentVideo (p : page) : option (nat * element) :=
  snd (scan (innerHeight p) (querySelectorAll (matchesTag REEL_VIDEO_SELECTOR) p) (Num 0, None)).

Definition scrollToNextReel : script := fun p =>
  (emit (Console LogL "Scroll triggered. Attempting to find next reel." []) ;;
   match querySelector matchesNextButton p with
   | Some (nextButton, button) =>
     emit (Console LogL "Success (Method 1): Found 'Next' button. Clicking it." [VElem nextButton]) ;;
     click nextButton button
   | None =>
     emit (Console WarnL "Could not find 'Next' button. Trying Method 2: Find and scroll container." []) ;;
     match currentVideo p with
     | None =>
       emit (Console ErrorL "Method 2 Failed: Could not find a visible video to scroll from." []) ;;
       emit (Console WarnL "Using Method 3: Final fallback scroll." []) ;;
       emit (WindowScrollBy 0 (innerHeight p))
     | Some (_, video) =>
       match walkUp p 15 (parentElement video) with
       | Some (c, scrollableContainer) =>
         let scrollAmount := clientHeight scrollableContainer in
         emit (Console LogL "Success (Method 2): Found scrollable container. Scrolling by ${scrollAmount}px."
                 [VNum scrollAmount; VElem c]) ;;
         emit (ElementScrollBy c scrollAmount 0 "smooth")
       | None =>
         emit (Console ErrorL "Method 2 Failed: Could not find a scrollable container for the visible video." [])
       end
     end
   end) p.

Definition addListenerToVideo (videoElement : nat) : script := fun p =>
  match nodes p !! videoElement with
  | None => (p, [], Normal)
  | Some e =>
    if truthy (autoScrollListenerAttached e) then (p, [], Normal)
    else
      (storeElement videoElement (wire (ArrowClosure (allocated p)) e) (S (allocated p)) p,
       [ Console LogL "Attaching 'ended' listener to new video." [VElem videoElement] ],
       Normal)
  end.

Definition handleAddedNode (node : addedNode) : script := fun p =>
  match node with
  | ElementNode i =>
    match nodes p !! i with
    | None => (p, [], Normal)
    | Some e =>
      if matchesTag REEL_VIDEO_SELECTOR e then addListenerToVideo i p
      else forEach addListenerToVideo
             (map fst (querySelectorAllIn (matchesTag REEL_VIDEO_SELECTOR) i p)) p
    end
  | OtherNode => (p, [], Normal)
  end.

Definition handleMutation (mutation : MutationRecord) : script :=
  if String.eqb (mtype mutation) "childList" && (0 <? Z.of_nat (length (addedNodes mutation)))
  then forEach handleAddedNode (addedNodes mutation)
  else skip.

Definition handleDomChanges (mutationsList : list MutationRecord) : script :=
  forEach handleMutation mutationsList.

(** *** Voice commands *)

Record alternative := { transcript : jsstring }.

(** [recognition.start()]: the request, and the exception the host raises
    for it, if any. *)
Definition start : script := fun p =>
  (p, [RecognitionStart],
   match startThrows p with
   | None => Normal
   | Some e => Throw e
   end).

Definition onresult (results : list (list alternative)) : script :=
  let last := (length results - 1)%nat in
  match results !! last ≫= (fun r => r !! 0%nat) with
  | None => throw "TypeError"
  | Some best =>
    let command := toLowerCase (trim (transcript best)) in
    emit (Console LogL ("Voice command heard: " +:+ dquote +:+ "${command}" +:+ dquote) [VStr command]) ;;
    if jsstring_eqb command (lit "next")
    then emit (Console LogL "'Next' command recognized. Scrolling..." []) ;; scrollToNextReel
    else skip
  end.

Definition onend : script :=
  emit (Console LogL "Speech recognition service ended. Restarting..." []) ;;
  start.

Definition onerror (error : string) : script :=
  if String.eqb error "not-allowed"
  then emit (Console ErrorL "Microphone access denied. Voice commands will not work." [])
  else emit (Console ErrorL "Speech recognition error:" [VErr error]).

Definition setupVoiceCommands : script := fun p =>
  if hasSpeechRecognition p || hasWebkitSpeechRecognition p then
    let recognition :=
      {| continuous := true; lang := "en-US"; interimResults := false; maxAlternatives := 1 |} in
    tryCatch
      (start ;;
       emit (Console LogL "🎤 Voice recognition started. Say 'next' to scroll." []))
      (fun e => emit (Console ErrorL "Could not start voice recognition:" [VErr e]))
      (storeSession recognition p)
  else
    emit (Console ErrorL "Speech Recognition API not supported in this browser." []) p.

(** Line 7 and lines 173 to 180. *)
Definition main : script := fun p =>
  (emit (Console LogL "Instagram Auto-Reel Scroller v1.3: Content script loaded." []) ;;
   emit (Observe true true) ;;
   forEach addListenerToVideo (map fst (querySelectorAll (matchesTag REEL_VIDEO_SELECTOR) p)) ;;
   setupVoiceCommands) p.

(** *** Events delivered by the host *)

(** Line 91: the arrow function drops the event. *)
Definition callListener (video : nat) (l : listener) : script :=
  match l with
  | ArrowClosure _ => isolated scrollToNextReel
  | NamedScrollToNextReel => skip
  end.

Definition dispatchEnded (video : nat) : script := fun p =>
  match nodes p !! video with
  | None => (p, [], Normal)
  | Some e => forEach (callListener video) (endedListeners e) p
  end.

Inductive hostEvent :=
| VideoEnded (video : nat)
| DomMutated (mutationsList : list MutationRecord)
| SpeechResult (results : list (list alternative))
| SpeechEnd
| SpeechError (error : string).

(** One turn of the event loop.  Speech events exist only once a session
    has been created; an exception leaving a callback ends that callback
    only. *)
Definition handle (ev : hostEvent) : script := fun p =>
  match ev with
  | VideoEnded video => dispatchEnded video p
  | DomMutated mutationsList => handleDomChanges mutationsList p
  | SpeechResult results =>
    match session p with Some _ => onresult results p | None => (p, [], Normal) end
  | SpeechEnd =>
    match session p with Some _ => onend p | None => (p, [], Normal) end
  | SpeechError error =>
    match session p with Some _ => onerror error p | None => (p, [], Normal) end
  end.

Fixpoint run (evs : list hostEvent) (p : page) : page * list effect :=
  match evs with
  | [] => (p, [])
  | ev :: evs' =>
    let r := handle ev p in
    let r' := run evs' (final r) in
    (fst r', trace r ++ snd r')
  end.

End V13.

(** * Vocabulary of the statements *)

(** [i] is an element of the document, with record [e]. *)
Definition inDocument (p : page) (i : nat) (e : element) : Prop :=
  i ∈ order p ∧ nodes p !! i = Some e.

(** The accessible label of [e] contains the substring Next. *)
Definition labelledNext (e : element) : Prop :=
  ∃ l pre post, ariaLabel e = Some l ∧ l = pre ++ lit "Next" ++ post.

Definition isVideo (e : element) : Prop := tagName e = "video".

(** The element reached from [start] after [k] further steps to the parent. *)
Fixpoint nthAncestor (p : page) (k : nat) (start : option nat) : option nat :=
  match k with
  | O => start
  | S k' =>
    match start with
    | None => None
    | Some i =>
      match nodes p !! i with
      | None => None
      | Some e => nthAncestor p k' (parentElement e)
      end
    end
  end.

(** Content height exceeds the visible height by more than 50 pixels. *)
Definition overflowing (e : element) : Prop := scrollHeight e > clientHeight e + 50.

(** No ancestor at one of the first [n] levels above [start] overflows. *)
Definition noneOverflowing (p : page) (n : nat) (start : option nat) : Prop :=
  ∀ j c e, (j < n)%nat → nthAncestor p j start = Some c → nodes p !! c = Some e →
    ¬ overflowing e.

Definition isScroll (x : effect) : bool :=
  match x with
  | ElementScrollBy _ _ _ _ | WindowScrollBy _ _ => true
  | _ => false
  end.

Definition isWindowScroll (x : effect) : bool :=
  match x with
  | WindowScrollBy _ _ => true
  | _ => false
  end.

Definition isConsole (x : effect) : bool :=
  match x with
  | Console _ _ _ => true
  | _ => false
  end.

(** Numeric equality of two quotients (NaN equals nothing). *)
Definition jsnum_eq (x y : jsnum) : Prop :=
  match x, y with
  | Num a, Num b => (a == b)%Q
  | PosInfinity, PosInfinity => True
  | NegInfinity, NegInfinity => True
  | _, _ => False
  end.

(** ** Sample pages *)

Definition mkElement (tag : string) (label : option string) (parent : option nat)
    (y h : Q) (sh ch : Z) : element :=
  {| tagName := tag;
     isHTMLElement := true;
     ariaLabel := lit <$> label;
     parentElement := parent;
     getBoundingClientRect := {| rect_y := y; rect_height := h |};
     scrollHeight := sh;
     clientHeight := ch;
     autoScrollListenerAttached := None;
     endedListeners := [] |}.

Definition mkPage (l : list (nat * element)) (innerH : Z) : page :=
  {| nodes := list_to_map l;
     order := map fst l;
     innerHeight := innerH;
     allocated := 0;
     hasSpeechRecognition := true;
     hasWebkitSpeechRecognition := false;
     startThrows := None;
     session := None |}.

(** A feed whose only video fills the viewport inside a box that does not
    overflow. *)
Definition plainVideo : element := mkElement "video" None (Some 10%nat) 0 800 800 800.
Definition plainPage : page :=
  mkPage [ (10%nat, mkElement "div" None None 0 800 800 800); (11%nat, plainVideo) ] 800.

(** The same feed inside a box holding five screens of content. *)
Definition feedVideo : element := mkElement "video" None (Some 10%nat) 0 800 800 800.
Definition feedPage : page :=
  mkPage [ (10%nat, mkElement "main" None None 0 800 4000 800); (11%nat, feedVideo) ] 800.

(** A page that offers a button labelled Next reel. *)
Definition buttonPage : page :=
  mkPage [ (10%nat, mkElement "main" None None 0 800 4000 800);
           (11%nat, feedVideo);
           (12%nat, mkElement "button" (Some "Next reel") (Some 10%nat) 0 40 40 40) ] 800.

(** A feed whose Next control is an unlabelled button holding a labelled
    icon: [<div role=button><svg aria-label=Next>]. *)
Definition nextIcon : element :=
  {| tagName := "svg";
     isHTMLElement := false;
     ariaLabel := Some (lit "Next");
     parentElement := Some 12%nat;
     getBoundingClientRect := {| rect_y := 380; rect_height := 24 |};
     scrollHeight := 0;
     clientHeight := 0;
     autoScrollListenerAttached := None;
     endedListeners := [] |}.

Definition iconPage : page :=
  mkPage [ (10%nat, mkElement "main" None None 0 800 4000 800);
           (11%nat, feedVideo);
           (12%nat, mkElement "div" None (Some 10%nat) 380 24 24 24);
           (13%nat, nextIcon) ] 800.

(** ** The visibility scan *)

(** The ratio of a listed video. *)
Definition ratioOf (innerH : Z) (w : nat * element) : jsnum :=
  V13.visibility innerH (snd w).

(** What is known of the running maximum once the videos in [seen] have
    been visited. *)
Definition scanned (innerH : Z) (seen : list (nat * element))
    (acc : jsnum * option (nat * element)) : Prop :=
  fst acc ≠ NaN ∧
  (∀ w, In w seen → jsgt (ratioOf innerH w) (fst acc) = false) ∧
  match snd acc with
  | None => fst acc = Num 0
  | Some v =>
    ratioOf innerH v = fst acc ∧ jsgt (fst acc) (Num 0) = true ∧
    ∃ before after, seen = before ++ v :: after ∧
      ∀ w, In w before → ¬ jsnum_eq (ratioOf innerH w) (fst acc)
  end.

(** [e], at [i], is a video of the document with a positive ratio that no
    video of the document exceeds, and no video before it in document order
    has an equal ratio. *)
Definition firstMaximum (p : page) (i : nat) (e : element) : Prop :=
  let ratio := V13.visibility (innerHeight p) in
  inDocument p i e ∧ isVideo e ∧
  jsgt (ratio e) (Num 0) = true ∧
  (∀ j e', inDocument p j e' → isVideo e' → jsgt (ratio e') (ratio e) = false) ∧
  ∃ before after,
    querySelectorAll (matchesTag REEL_VIDEO_SELECTOR) p = before ++ (i, e) :: after ∧
    ∀ w, In w before → ¬ jsnum_eq (ratio (snd w)) (ratio e).


(** Three videos with ratios one half, one and one; and a page whose only
    video lies below the viewport. *)
Definition halfVideo : element := mkElement "video" None (Some 10%nat) (-400) 800 800 800.


Definition flatVideo : element := mkElement "video" None (Some 10%nat) 100 0 0 0.
Definition flatPage : page :=
  mkPage [ (10%nat, mkElement "main" None None 0 800 4000 800); (11%nat, flatVideo) ] 800.

(** Two videos lying entirely inside the viewport, at fractional positions:
    [y = 100.1], [height = 500.2] and, after it in the document,
    [y = 0.1], [height = 0.2]. *)
Definition tallVideo : element :=
  mkElement "video" None (Some 10%nat) (double (1001 # 10)) (double (5002 # 10)) 500 500.
Definition thinVideo : element :=
  mkElement "video" None (Some 10%nat) (double (1 # 10)) (double (2 # 10)) 0 0.
Definition fractionalPage : page :=
  mkPage [ (10%nat, mkElement "main" None None 0 800 4000 800);
           (11%nat, tallVideo); (21%nat, thinVideo) ] 800.

(** A video of height zero ahead of a visible one. *)
Definition mixedPage : page :=
  mkPage [ (10%nat, mkElement "main" None None 0 800 4000 800);
           (11%nat, flatVideo); (12%nat, halfVideo) ] 800.

(** ** Wiring the ended listener *)

Definition wiredOnce (e : element) : Prop :=
  truthy (autoScrollListenerAttached e) = true ∧ length (endedListeners e) = 1%nat.

Definition unwired (e : element) : Prop :=
  truthy (autoScrollListenerAttached e) = false ∧ endedListeners e = [].

(** The marker tells whether the listener is there. *)
Definition consistent (e : element) : Prop := wiredOnce e ∨ unwired e.

Definition allConsistent (p : page) : Prop :=
  ∀ v e, nodes p !! v = Some e → consistent e.

Definition marked (v : nat) (p : page) : Prop :=
  ∃ e, nodes p !! v = Some e ∧ truthy (autoScrollListenerAttached e) = true.

(** A page the script has not touched yet. *)
Definition pristine (p : page) : Prop :=
  ∀ v e, nodes p !! v = Some e → autoScrollListenerAttached e = None ∧ endedListeners e = [].

Fixpoint times (n : nat) (s : script) : script :=
  match n with
  | O => skip
  | S n' => s ;; times n' s
  end.

Definition preserves (I : page → Prop) (s : script) : Prop :=
  ∀ p, I p → I (final (s p)).

Definition wiredOnceAt (v : nat) (p : page) : Prop :=
  ∃ e, nodes p !! v = Some e ∧ wiredOnce e.

(** ** The ended event *)

(** Every container scroll requested by the ended event of [video] targets
    the container found by walking up from [video] itself. *)
Definition endedSearchStartsAtTarget (dispatch : nat → script) (p : page) (video : nat) : Prop :=
  ∀ c top left b, In (ElementScrollBy c top left b) (trace (dispatch video p)) →
    ∃ e container, nodes p !! video = Some e ∧
      walkUp p 15 (parentElement e) = Some (c, container).

(** Every container scroll requested targets the container found by walking
    up from the video the visibility scan selects. *)
Definition searchStartsAtScan (t : list effect) (p : page) : Prop :=
  ∀ c top left b, In (ElementScrollBy c top left b) t →
    ∃ i cur container, V13.currentVideo p = Some (i, cur) ∧
      walkUp p 15 (parentElement cur) = Some (c, container).

(** Two feeds side by side.  The video of the first feed has mostly left the
    viewport (ratio one quarter); the video of the second fills three
    quarters of it. *)
Definition leavingVideo : element := mkElement "video" None (Some 10%nat) (-600) 800 800 800.
Definition enteringVideo : element := mkElement "video" None (Some 20%nat) 200 800 800 800.
Definition twoFeeds : page :=
  mkPage [ (10%nat, mkElement "main" None None 0 700 4000 700);
           (11%nat, leavingVideo);
           (20%nat, mkElement "div" None None 0 800 4000 800);
           (21%nat, enteringVideo) ] 800.

Definition wiredTwoFeeds12 : page := final (V12.main twoFeeds).
Definition wiredTwoFeeds13 : page := final (V13.main twoFeeds).

(** ** The voice command *)

Definition allTrimmable (ws : jsstring) : Prop := Forall (fun u => isTrimmable u = true) ws.

(** [u] is the lower-case letter [c] or its capital. *)
Definition sameLetter (u c : N) : Prop := u = c ∨ (u + 32 = c)%N.

(** [w] spells next in some mix of upper and lower case. *)
Definition spellsNext (w : jsstring) : Prop := Forall2 sameLetter w (lit "next").

Definition heard (command : jsstring) : effect :=
  Console LogL ("Voice command heard: " +:+ dquote +:+ "${command}" +:+ dquote) [VStr command].

(** ** The recognition session *)

Definition isStart (x : effect) : bool :=
  match x with
  | RecognitionStart => true
  | _ => false
  end.

(** Number of [recognition.start()] requests in a run. *)
Definition restarts (t : list effect) : nat := length (List.filter isStart t).

Definition isSpeechEnd (ev : V13.hostEvent) : bool :=
  match ev with
  | V13.SpeechEnd => true
  | _ => false
  end.

Definition ends (evs : list V13.hostEvent) : nat := length (List.filter isSpeechEnd evs).

(** A statement that never asks for a recognition start. *)
Definition quiet (s : script) : Prop := ∀ p, restarts (trace (s p)) = 0%nat.

Definition keepsSession (s : script) : Prop :=
  ∀ r, preserves (fun q => session q = Some r) s.

Definition listeningPage : page := final (V13.main feedPage).

(** ** Start-up *)

(** A statement that always completes normally. *)
Definition total (s : script) : Prop := ∀ p, outcome (s p) = Normal.

(** The host capabilities and the session are as on [p]. *)
Definition sameHost (p q : page) : Prop :=
  hasSpeechRecognition q = hasSpeechRecognition p ∧
  hasWebkitSpeechRecognition q = hasWebkitSpeechRecognition p ∧
  startThrows q = startThrows p ∧
  session q = session p.

Definition arrowOnly (p : page) : Prop :=
  ∀ v e, nodes p !! v = Some e → Forall (fun l => ∃ n, l = ArrowClosure n) (endedListeners e).

(** Line 7 and lines 173 to 177: observer and initial scan, before voice
    setup. *)
Definition wiringPhase (p : page) : page * list effect * completion :=
  (emit (Console LogL "Instagram Auto-Reel Scroller v1.3: Content script loaded." []) ;;
   emit (Observe true true) ;;
   forEach V13.addListenerToVideo (map fst (querySelectorAll (matchesTag REEL_VIDEO_SELECTOR) p))) p.

Definition unsupportedNotice : effect :=
  Console ErrorL "Speech Recognition API not supported in this browser." [].

Definition withHost (sr wk : bool) (st : option string) (p : page) : page :=
  {| nodes := nodes p;
     order := order p;
     innerHeight := innerHeight p;
     allocated := allocated p;
     hasSpeechRecognition := sr;
     hasWebkitSpeechRecognition := wk;
     startThrows := st;
     session := session p |}.

(** The feed in a browser without speech recognition, and in one whose
    [start()] throws. *)
Definition silentPage : page := withHost false false None feedPage.
Definition failingPage : page := withHost false true (Some "InvalidStateError") feedPage.

(** * Further vocabulary *)

(** A request that moves the feed: a click or a scroll. *)
Definition isAction (x : effect) : bool :=
  match x with
  | Click _ | ElementScrollBy _ _ _ _ | WindowScrollBy _ _ => true
  | _ => false
  end.

Definition actions (t : list effect) : list effect := List.filter isAction t.

(** [c], with record [container], is the nearest overflowing ancestor of an
    element whose parent is [start], at most fifteen levels up. *)
Definition nearestOverflowing (p : page) (start : option nat) (c : nat) (container : element) : Prop :=
  ∃ k, (k < 15)%nat ∧ nthAncestor p k start = Some c ∧ nodes p !! c = Some container ∧
    overflowing container ∧ noneOverflowing p k start.

Definition noNextButton (p : page) : Prop := ∀ j e, inDocument p j e → ¬ labelledNext e.

(** The first element labelled Next is not an HTML element: the selector
    returns it, and it has no [click] method. *)
Definition clickThrows (p : page) : Prop :=
  ∃ b e, querySelector matchesNextButton p = Some (b, e) ∧ isHTMLElement e = false.

(** The element without what the script writes on it: marker and listeners. *)
Definition bare (e : element) : element :=
  {| tagName := tagName e;
     isHTMLElement := isHTMLElement e;
     ariaLabel := ariaLabel e;
     parentElement := parentElement e;
     getBoundingClientRect := getBoundingClientRect e;
     scrollHeight := scrollHeight e;
     clientHeight := clientHeight e;
     autoScrollListenerAttached := None;
     endedListeners := [] |}.

Definition bareEntry (ie : nat * element) : nat * element := (fst ie, bare (snd ie)).

(** The page as the host laid it out: elements, document order and viewport
    height, without markers, listeners, session or host capabilities. *)
Definition layout (p : page) : page :=
  {| nodes := bare <$> nodes p;
     order := order p;
     innerHeight := innerHeight p;
     allocated := 0;
     hasSpeechRecognition := false;
     hasWebkitSpeechRecognition := false;
     startThrows := None;
     session := None |}.

(** [q] shows the same layout as [p]. *)
Definition sameLayout (p q : page) : Prop := layout q = layout p.

(** The added [node] brings the video [v] (record [e]) to the page [p]: it
    is [v] itself, or an element that is not a video and has [v], a member of
    the document, among its descendants. *)
Definition brings (p : page) (node : addedNode) (v : nat) (e : element) : Prop :=
  node = ElementNode v ∨
  ∃ i container k, node = ElementNode i ∧ nodes p !! i = Some container ∧ ¬ isVideo container ∧
    inDocument p v e ∧ nthAncestor p k (parentElement e) = Some i ∧ (k < length (order p))%nat.

(** A feed to which the host has just added a wrapper holding a video, and a
    video next to it. *)
Definition addedVideo : element := mkElement "video" None (Some 30%nat) 800 800 800 800.
Definition siblingVideo : element := mkElement "video" None (Some 10%nat) 1600 800 800 800.
Definition grownPage : page :=
  mkPage [ (10%nat, mkElement "main" None None 0 800 4000 800);
           (11%nat, feedVideo);
           (30%nat, mkElement "div" None (Some 10%nat) 800 800 800 800);
           (31%nat, addedVideo);
           (32%nat, siblingVideo) ] 800.

Definition grownBatch : list MutationRecord :=
  [ {| mtype := "attributes"; addedNodes := [] |};
    {| mtype := "childList"; addedNodes := [OtherNode; ElementNode 30; ElementNode 32] |} ].

Definition quietBatch : list MutationRecord :=
  [ {| mtype := "attributes"; addedNodes := [ElementNode 31] |};
    {| mtype := "childList"; addedNodes := [OtherNode] |};
    {| mtype := "childList"; addedNodes := [] |} ].

(** Every ended listener on the page is the named function of v1.2. *)
Definition namedOnly (p : page) : Prop :=
  ∀ v e, nodes p !! v = Some e → Forall (fun l => l = NamedScrollToNextReel) (endedListeners e).

Definition voiceSession : recognition :=
  {| continuous := true; lang := "en-US"; interimResults := false; maxAlternatives := 1 |}.

(** A page without a main element: the feed inside a plain box. *)
Definition boxedPage : page :=
  mkPage [ (10%nat, mkElement "div" None None 0 800 4000 800); (11%nat, feedVideo) ] 800.

(** * Properties *)

(** ** Strings *)

Lemma isPrefixOf_spec needle hay :
  isPrefixOf needle hay = true ↔ ∃ post, hay = needle ++ post.
Proof.
  revert hay. induction needle as [|a needle IH]; intros hay; simpl.
  - split; [intros _; by exists hay | done].
  - destruct hay as [|b hay].
    + split; [done | intros [post H]; discriminate H].
    + rewrite andb_true_iff, N.eqb_eq, IH. split.
      * intros [-> [post ->]]. by exists post.
      * intros [post H]. injection H as -> ->. eauto.
Qed.

Lemma includes_spec needle hay :
  includes needle hay = true ↔ ∃ pre post, hay = pre ++ needle ++ post.
Proof.
  induction hay as [|b hay IH]; simpl.
  - rewrite orb_false_r, isPrefixOf_spec. split.
    + intros [post H]. by exists [], post.
    + intros [pre [post H]]. destruct pre; [by exists post|discriminate H].
  - rewrite orb_true_iff, isPrefixOf_spec, IH. split.
    + intros [[post H]|[pre [post ->]]].
      * by exists [], post.
      * by exists (b :: pre), post.
    + intros [pre [post H]]. destruct pre as [|x pre].
      * left. by exists post.
      * right. injection H as -> ->. by exists pre, post.
Qed.

Lemma matchesNextButton_spec e : matchesNextButton e = true ↔ labelledNext e.
Proof.
  unfold matchesNextButton, labelledNext, NEXT_BUTTON_SELECTOR.
  destruct (ariaLabel e) as [l|].
  - rewrite includes_spec. split.
    + intros [pre [post ->]]. by exists (pre ++ lit "Next" ++ post), pre, post.
    + intros [l' [pre [post [[= <-] ->]]]]. by exists pre, post.
  - split; [done | intros [l [pre [post [H _]]]]; discriminate H].
Qed.

(** ** Queries *)

Lemma elements_spec p i e : In (i, e) (elements p) ↔ inDocument p i e.
Proof.
  unfold elements, inDocument. rewrite <- list_elem_of_In, list_elem_of_omap. split.
  - intros [j [Hj Hl]]. destruct (nodes p !! j) as [e'|] eqn:E; simpl in Hl; [|done].
    injection Hl as -> ->. done.
  - intros [Hi Hl]. exists i. split; [done|]. by rewrite Hl.
Qed.

Lemma querySelectorAll_spec sel p i e :
  In (i, e) (querySelectorAll sel p) ↔ inDocument p i e ∧ sel e = true.
Proof. unfold querySelectorAll. by rewrite filter_In, elements_spec. Qed.

Lemma matchesTag_video e : matchesTag REEL_VIDEO_SELECTOR e = true ↔ isVideo e.
Proof. unfold matchesTag, isVideo, REEL_VIDEO_SELECTOR. apply String.eqb_eq. Qed.

Lemma querySelector_none sel p :
  (∀ i e, inDocument p i e → sel e = false) → querySelector sel p = None.
Proof.
  intros H. unfold querySelector.
  destruct (find _ _) as [[i e]|] eqn:E; [|done].
  apply find_some in E as [Hin Hsel]. apply elements_spec in Hin.
  simpl in Hsel. by rewrite (H i e Hin) in Hsel.
Qed.

Lemma querySelector_some sel p :
  (∃ i e, inDocument p i e ∧ sel e = true) →
  ∃ i e, querySelector sel p = Some (i, e) ∧ inDocument p i e ∧ sel e = true.
Proof.
  intros [i [e [Hin Hsel]]]. unfold querySelector.
  destruct (find _ _) as [[j e']|] eqn:E.
  - apply find_some in E as [Hin' Hsel']. apply elements_spec in Hin'. by exists j, e'.
  - apply elements_spec in Hin. pose proof (find_none _ _ E _ Hin) as F.
    simpl in F. congruence.
Qed.

Lemma no_next_button p :
  (∀ i e, inDocument p i e → ¬ labelledNext e) →
  querySelector matchesNextButton p = None.
Proof.
  intros H. apply querySelector_none. intros i e Hin.
  destruct (matchesNextButton e) eqn:E; [|done].
  apply matchesNextButton_spec in E. by destruct (H i e Hin).
Qed.

(** ** The ancestor walk *)

Lemma overflowing_gtb e : (scrollHeight e >? clientHeight e + 50) = true ↔ overflowing e.
Proof. unfold overflowing. rewrite Z.gtb_ltb, Z.ltb_lt. lia. Qed.

Lemma walkUp_nearest p budget : ∀ k start c e,
  (k < budget)%nat →
  nthAncestor p k start = Some c → nodes p !! c = Some e → overflowing e →
  noneOverflowing p k start →
  walkUp p budget start = Some (c, e).
Proof.
  induction budget as [|budget IH]; intros k start c e Hk Hanc Hc Hov Hnone; [lia|].
  simpl. destruct k as [|k]; simpl in Hanc.
  - subst start. rewrite Hc. apply overflowing_gtb in Hov. by rewrite Hov.
  - destruct start as [i|]; [|done].
    destruct (nodes p !! i) as [ei|] eqn:Ei; [|done].
    destruct (scrollHeight ei >? clientHeight ei + 50) eqn:G.
    + apply overflowing_gtb in G. destruct (Hnone 0%nat i ei); [lia|done|done|done].
    + apply (IH k); [lia|done|done|done|].
      intros j c' e' Hj Hanc' Hc'. apply (Hnone (S j) c' e'); [lia| |done].
      simpl. by rewrite Ei.
Qed.

Lemma walkUp_none p budget : ∀ start,
  noneOverflowing p budget start → walkUp p budget start = None.
Proof.
  induction budget as [|budget IH]; intros start Hnone; [done|].
  simpl. destruct start as [i|]; [|done].
  destruct (nodes p !! i) as [ei|] eqn:Ei; [|done].
  destruct (scrollHeight ei >? clientHeight ei + 50) eqn:G.
  - apply overflowing_gtb in G. destruct (Hnone 0%nat i ei); [lia|done|done|done].
  - apply IH. intros j c' e' Hj Hanc' Hc'. apply (Hnone (S j) c' e'); [lia| |done].
    simpl. by rewrite Ei.
Qed.

Lemma walkUp_none_inv p budget : ∀ start,
  walkUp p budget start = None → noneOverflowing p budget start.
Proof.
  induction budget as [|budget IH]; intros start Hw j c e Hj Hanc Hc; [lia|].
  simpl in Hw. destruct start as [i|]; [|by destruct j].
  destruct (nodes p !! i) as [ei|] eqn:Ei.
  - destruct (scrollHeight ei >? clientHeight ei + 50) eqn:G; [done|].
    destruct j as [|j]; simpl in Hanc.
    + injection Hanc as <-. rewrite Ei in Hc. injection Hc as <-.
      intros Hov. apply overflowing_gtb in Hov. congruence.
    + rewrite Ei in Hanc. apply (IH _ Hw j c e); [lia|done|done].
  - destruct j as [|j]; simpl in Hanc.
    + injection Hanc as <-. congruence.
    + by rewrite Ei in Hanc.
Qed.

Lemma no_next_button_inv p :
  querySelector matchesNextButton p = None →
  ∀ i e, inDocument p i e → ¬ labelledNext e.
Proof.
  intros Hq i e Hin Hl. apply elements_spec in Hin.
  pose proof (find_none _ _ Hq _ Hin) as F. simpl in F.
  apply matchesNextButton_spec in Hl. congruence.
Qed.

(** ** Method 1: the Next button *)

(** ** The branches of [scrollToNextReel] *)

Lemma V13_scrollToNextReel_cases p :
  V13.scrollToNextReel p =
  match querySelector matchesNextButton p with
  | Some (nextButton, button) =>
    if isHTMLElement button
    then (p, [ Console LogL "Scroll triggered. Attempting to find next reel." [];
               Console LogL "Success (Method 1): Found 'Next' button. Clicking it." [VElem nextButton];
               Click nextButton ], Normal)
    else (p, [ Console LogL "Scroll triggered. Attempting to find next reel." [];
               Console LogL "Success (Method 1): Found 'Next' button. Clicking it." [VElem nextButton] ],
          Throw "TypeError")
  | None =>
    (p, Console LogL "Scroll triggered. Attempting to find next reel." [] ::
        Console WarnL "Could not find 'Next' button. Trying Method 2: Find and scroll container." [] ::
        match V13.currentVideo p with
        | None =>
          [ Console ErrorL "Method 2 Failed: Could not find a visible video to scroll from." [];
            Console WarnL "Using Method 3: Final fallback scroll." [];
            WindowScrollBy 0 (innerHeight p) ]
        | Some (_, video) =>
          match walkUp p 15 (parentElement video) with
          | Some (c, scrollableContainer) =>
            [ Console LogL "Success (Method 2): Found scrollable container. Scrolling by ${scrollAmount}px."
                [VNum (clientHeight scrollableContainer); VElem c];
              ElementScrollBy c (clientHeight scrollableContainer) 0 "smooth" ]
          | None =>
            [ Console ErrorL "Method 2 Failed: Could not find a scrollable container for the visible video." [] ]
          end
        end, Normal)
  end.
Proof.
  unfold V13.scrollToNextReel, click, seq, emit, throw.
  destruct (querySelector matchesNextButton p) as [[nextButton button]|].
  - by destruct (isHTMLElement button).
  - destruct (V13.currentVideo p) as [[i video]|]; [|done].
    by destruct (walkUp p 15 (parentElement video)) as [[c container]|].
Qed.

Lemma V12_scrollToNextReel_cases ev p :
  V12.scrollToNextReel ev p =
  match querySelector matchesNextButton p with
  | Some (nextButton, button) =>
    if isHTMLElement button
    then (p, [ Console LogL "Reel finished. Attempting smart scroll." [];
               Console LogL "Success (Method 1): Found 'Next' button. Clicking it." [VElem nextButton];
               Click nextButton ], Normal)
    else (p, [ Console LogL "Reel finished. Attempting smart scroll." [];
               Console LogL "Success (Method 1): Found 'Next' button. Clicking it." [VElem nextButton] ],
          Throw "TypeError")
  | None =>
    (p, Console LogL "Reel finished. Attempting smart scroll." [] ::
        Console WarnL "Could not find 'Next' button. Trying Method 2: Find and scroll container." [] ::
        match V12.currentVideo ev with
        | None => [ Console ErrorL "Could not identify the video that ended." [] ]
        | Some video =>
          match walkUp p 15 (nodes p !! video ≫= parentElement) with
          | Some (c, scrollableContainer) =>
            [ Console LogL "Success (Method 2): Found scrollable container. Scrolling by ${scrollAmount}px."
                [VNum (clientHeight scrollableContainer); VElem c];
              ElementScrollBy c (clientHeight scrollableContainer) 0 "smooth" ]
          | None =>
            [ Console WarnL "Could not find scrollable container. Using Method 3: Final fallback scroll." [];
              WindowScrollBy 0 (innerHeight p) ]
          end
        end, Normal)
  end.
Proof.
  unfold V12.scrollToNextReel, click, seq, emit, throw.
  destruct (querySelector matchesNextButton p) as [[nextButton button]|].
  - by destruct (isHTMLElement button).
  - destruct (V12.currentVideo ev) as [video|]; [|done].
    by destruct (walkUp p 15 (nodes p !! video ≫= parentElement)) as [[c container]|].
Qed.

(** A run of [scrollToNextReel] writes nothing on the page. *)
Lemma V13_scrollToNextReel_final p : final (V13.scrollToNextReel p) = p.
Proof.
  rewrite V13_scrollToNextReel_cases.
  destruct (querySelector matchesNextButton p) as [[nextButton button]|]; [|done].
  by destruct (isHTMLElement button).
Qed.

Lemma V12_scrollToNextReel_final ev p : final (V12.scrollToNextReel ev p) = p.
Proof.
  rewrite V12_scrollToNextReel_cases.
  destruct (querySelector matchesNextButton p) as [[nextButton button]|]; [|done].
  by destruct (isHTMLElement button).
Qed.

(** ** Method 1: the Next button *)

(** When the first element labelled Next is an HTML element, both revisions
    click it and send nothing else but two console lines. *)
Lemma next_button_is_clicked (p : page) (ev : event) b e :
  querySelector matchesNextButton p = Some (b, e) →
  isHTMLElement e = true →
  inDocument p b e ∧ labelledNext e ∧
  V13.scrollToNextReel p =
    (p, [ Console LogL "Scroll triggered. Attempting to find next reel." [];
          Console LogL "Success (Method 1): Found 'Next' button. Clicking it." [VElem b];
          Click b ], Normal) ∧
  V12.scrollToNextReel ev p =
    (p, [ Console LogL "Reel finished. Attempting smart scroll." [];
          Console LogL "Success (Method 1): Found 'Next' button. Clicking it." [VElem b];
          Click b ], Normal).
Proof.
  intros Hq Hhtml.
  rewrite V13_scrollToNextReel_cases, V12_scrollToNextReel_cases, Hq, Hhtml.
  apply find_some in Hq as [Hin Hm]. simpl in Hm.
  split; [by apply elements_spec|]. split; [by apply matchesNextButton_spec|done].
Qed.

(** When it is not (an [svg] icon has no [click] method), the call throws
    after the success line: nothing is clicked or scrolled, and the later
    methods are not entered. *)
Lemma click_throws_outside_html (p : page) (ev : event) b e :
  querySelector matchesNextButton p = Some (b, e) →
  isHTMLElement e = false →
  V13.scrollToNextReel p =
    (p, [ Console LogL "Scroll triggered. Attempting to find next reel." [];
          Console LogL "Success (Method 1): Found 'Next' button. Clicking it." [VElem b] ],
     Throw "TypeError") ∧
  V12.scrollToNextReel ev p =
    (p, [ Console LogL "Reel finished. Attempting smart scroll." [];
          Console LogL "Success (Method 1): Found 'Next' button. Clicking it." [VElem b] ],
     Throw "TypeError").
Proof.
  intros Hq Hhtml.
  by rewrite V13_scrollToNextReel_cases, V12_scrollToNextReel_cases, Hq, Hhtml.
Qed.

(** C2. The page [iconPage] has an element whose accessible label contains
    Next: the [svg] icon inside the Next control, the only match of the
    selector.  In both revisions the run logs the success line of Method 1,
    then [nextButton.click()] throws a TypeError, an [svg] element having no
    such method: the element is not clicked, nothing is scrolled, and
    Methods 2 and 3 are not tried.  On [buttonPage], where the match is a
    button, the click is made. *)
Theorem C2_click_throws_on_labelled_icon :
  inDocument iconPage 13 nextIcon ∧ labelledNext nextIcon ∧
  querySelector matchesNextButton iconPage = Some (13%nat, nextIcon) ∧
  V13.scrollToNextReel iconPage =
    (iconPage,
     [ Console LogL "Scroll triggered. Attempting to find next reel." [];
       Console LogL "Success (Method 1): Found 'Next' button. Clicking it." [VElem 13] ],
     Throw "TypeError") ∧
  V12.scrollToNextReel {| target := Some 11%nat |} iconPage =
    (iconPage,
     [ Console LogL "Reel finished. Attempting smart scroll." [];
       Console LogL "Success (Method 1): Found 'Next' button. Clicking it." [VElem 13] ],
     Throw "TypeError") ∧
  actions (trace (V13.scrollToNextReel iconPage)) = [] ∧
  actions (trace (V12.scrollToNextReel {| target := Some 11%nat |} iconPage)) = [] ∧
  actions (trace (V13.scrollToNextReel buttonPage)) = [Click 12] ∧
  actions (trace (V12.scrollToNextReel {| target := Some 11%nat |} buttonPage)) = [Click 12].
Proof.
  assert (Hq : querySelector matchesNextButton iconPage = Some (13%nat, nextIcon))
    by (vm_compute; reflexivity).
  destruct (click_throws_outside_html iconPage {| target := Some 11%nat |} _ _ Hq eq_refl)
    as [H13 H12].
  split; [apply elements_spec; vm_compute; tauto|].
  split; [by exists (lit "Next"), [], []|].
  split; [done|]. rewrite H13, H12.
  split; [done|]. split; [done|]. split; [done|]. split; [done|].
  assert (Hb : querySelector matchesNextButton buttonPage =
               Some (12%nat, mkElement "button" (Some "Next reel") (Some 10%nat) 0 40 40 40))
    by (vm_compute; reflexivity).
  destruct (next_button_is_clicked buttonPage {| target := Some 11%nat |} _ _ Hb eq_refl)
    as (_ & _ & B13 & B12).
  by rewrite B13, B12.
Qed.

(** ** Method 2: scrolling the nearest overflowing ancestor *)

Lemma V13_container_scroll p i video k c container :
  (∀ j e, inDocument p j e → ¬ labelledNext e) →
  V13.currentVideo p = Some (i, video) →
  (k < 15)%nat →
  nthAncestor p k (parentElement video) = Some c →
  nodes p !! c = Some container → overflowing container →
  noneOverflowing p k (parentElement video) →
  V13.scrollToNextReel p =
    (p, [ Console LogL "Scroll triggered. Attempting to find next reel." [];
      Console WarnL "Could not find 'Next' button. Trying Method 2: Find and scroll container." [];
      Console LogL "Success (Method 2): Found scrollable container. Scrolling by ${scrollAmount}px."
        [VNum (clientHeight container); VElem c];
      ElementScrollBy c (clientHeight container) 0 "smooth" ], Normal).
Proof.
  intros Hno Hcur Hk Hanc Hc Hov Hnone. unfold V13.scrollToNextReel.
  rewrite (no_next_button p Hno), Hcur. cbv beta iota.
  by rewrite (walkUp_nearest p 15 k _ c container Hk Hanc Hc Hov Hnone).
Qed.

Lemma V12_container_scroll p i video k c container :
  (∀ j e, inDocument p j e → ¬ labelledNext e) →
  nodes p !! i = Some video →
  (k < 15)%nat →
  nthAncestor p k (parentElement video) = Some c →
  nodes p !! c = Some container → overflowing container →
  noneOverflowing p k (parentElement video) →
  V12.scrollToNextReel {| target := Some i |} p =
    (p, [ Console LogL "Reel finished. Attempting smart scroll." [];
      Console WarnL "Could not find 'Next' button. Trying Method 2: Find and scroll container." [];
      Console LogL "Success (Method 2): Found scrollable container. Scrolling by ${scrollAmount}px."
        [VNum (clientHeight container); VElem c];
      ElementScrollBy c (clientHeight container) 0 "smooth" ], Normal).
Proof.
  intros Hno Hi Hk Hanc Hc Hov Hnone. unfold V12.scrollToNextReel, V12.currentVideo.
  rewrite (no_next_button p Hno). cbv [target]. rewrite Hi.
  change (Some video ≫= parentElement) with (parentElement video).
  by rewrite (walkUp_nearest p 15 k _ c container Hk Hanc Hc Hov Hnone).
Qed.

(** C3. On every page without a Next-labelled element, if the current video
    (the video picked by the visibility scan in v1.3, the target of the
    ended event in v1.2) has, [k+1 <= 15] levels up, an ancestor whose
    [scrollHeight] exceeds its [clientHeight] by more than 50, and no nearer
    ancestor does, then [scrollToNextReel] asks exactly that ancestor to
    scroll down by its own [clientHeight] with smooth behaviour, and makes no
    window scroll request. *)
Theorem C3_nearest_overflowing_ancestor_is_scrolled
    (p : page) (i : nat) (video : element) (k c : nat) (container : element) :
  (∀ j e, inDocument p j e → ¬ labelledNext e) →
  (k < 15)%nat →
  nthAncestor p k (parentElement video) = Some c →
  nodes p !! c = Some container → overflowing container →
  noneOverflowing p k (parentElement video) →
  (V13.currentVideo p = Some (i, video) →
     (∃ pre, trace (V13.scrollToNextReel p) =
        pre ++ [ElementScrollBy c (clientHeight container) 0 "smooth"] ∧
        forallb isConsole pre = true) ∧
     existsb isWindowScroll (trace (V13.scrollToNextReel p)) = false ∧
     outcome (V13.scrollToNextReel p) = Normal) ∧
  (nodes p !! i = Some video →
     (∃ pre, trace (V12.scrollToNextReel {| target := Some i |} p) =
        pre ++ [ElementScrollBy c (clientHeight container) 0 "smooth"] ∧
        forallb isConsole pre = true) ∧
     existsb isWindowScroll (trace (V12.scrollToNextReel {| target := Some i |} p)) = false ∧
     outcome (V12.scrollToNextReel {| target := Some i |} p) = Normal).
Proof.
  intros Hno Hk Hanc Hc Hov Hnone. split.
  - intros Hcur.
    rewrite (V13_container_scroll p i video k c container) by done.
    split; [|done]. eexists [_; _; _]. split; reflexivity.
  - intros Hi.
    rewrite (V12_container_scroll p i video k c container) by done.
    split; [|done]. eexists [_; _; _]. split; reflexivity.
Qed.

Lemma C3_nearest_overflowing_ancestor_is_scrolled_witness :
  existsb isWindowScroll (trace (V13.scrollToNextReel feedPage)) = false ∧
  existsb isWindowScroll (trace (V12.scrollToNextReel {| target := Some 11%nat |} feedPage)) = false.
Proof.
  destruct (C3_nearest_overflowing_ancestor_is_scrolled feedPage 11 feedVideo 0 10
              (mkElement "main" None None 0 800 4000 800)) as [H13 H12].
  - apply no_next_button_inv. vm_compute. reflexivity.
  - lia.
  - reflexivity.
  - vm_compute. reflexivity.
  - unfold overflowing. simpl. lia.
  - intros j c e Hj. lia.
  - split.
    + apply (proj1 (proj2 (H13 eq_refl))).
    + apply (proj1 (proj2 (H12 eq_refl))).
Defined.

(** ** Method 3: the window fallback *)

(** In v1.2 the fallback is reached from the ended video as soon as none of
    its fifteen nearest ancestors overflows. *)
Lemma V12_window_fallback p i video :
  (∀ j e, inDocument p j e → ¬ labelledNext e) →
  nodes p !! i = Some video →
  noneOverflowing p 15 (parentElement video) →
  V12.scrollToNextReel {| target := Some i |} p =
    (p, [ Console LogL "Reel finished. Attempting smart scroll." [];
      Console WarnL "Could not find 'Next' button. Trying Method 2: Find and scroll container." [];
      Console WarnL "Could not find scrollable container. Using Method 3: Final fallback scroll." [];
      WindowScrollBy 0 (innerHeight p) ], Normal).
Proof.
  intros Hno Hi Hnone. unfold V12.scrollToNextReel, V12.currentVideo.
  rewrite (no_next_button p Hno). cbv [target]. rewrite Hi.
  change (Some video ≫= parentElement) with (parentElement video).
  by rewrite (walkUp_none p 15 _ Hnone).
Qed.


(** In v1.3 a selected video without an overflowing ancestor ends the run
    with an error line: the window is not scrolled. *)
Lemma V13_no_fallback_with_video p i video :
  (∀ j e, inDocument p j e → ¬ labelledNext e) →
  V13.currentVideo p = Some (i, video) →
  noneOverflowing p 15 (parentElement video) →
  V13.scrollToNextReel p =
    (p, [ Console LogL "Scroll triggered. Attempting to find next reel." [];
      Console WarnL "Could not find 'Next' button. Trying Method 2: Find and scroll container." [];
      Console ErrorL "Method 2 Failed: Could not find a scrollable container for the visible video." [] ], Normal).
Proof.
  intros Hno Hcur Hnone. unfold V13.scrollToNextReel.
  rewrite (no_next_button p Hno), Hcur. cbv beta iota.
  by rewrite (walkUp_none p 15 _ Hnone).
Qed.

(** C1. The page [plainPage] has no Next-labelled element and its one video,
    fully visible, has no overflowing ancestor.  Version 1.2 scrolls the
    window by [innerHeight] there; version 1.3 selects the video, finds no
    container, logs an error and makes no scroll request at all. *)
Theorem C1_window_fallback_missing_in_v13 :
  (∀ j e, inDocument plainPage j e → ¬ labelledNext e) ∧
  V13.currentVideo plainPage = Some (11%nat, plainVideo) ∧
  noneOverflowing plainPage 15 (parentElement plainVideo) ∧
  V12.scrollToNextReel {| target := Some 11%nat |} plainPage =
    (plainPage, [ Console LogL "Reel finished. Attempting smart scroll." [];
      Console WarnL "Could not find 'Next' button. Trying Method 2: Find and scroll container." [];
      Console WarnL "Could not find scrollable container. Using Method 3: Final fallback scroll." [];
      WindowScrollBy 0 800 ], Normal) ∧
  V13.scrollToNextReel plainPage =
    (plainPage, [ Console LogL "Scroll triggered. Attempting to find next reel." [];
      Console WarnL "Could not find 'Next' button. Trying Method 2: Find and scroll container." [];
      Console ErrorL "Method 2 Failed: Could not find a scrollable container for the visible video." [] ], Normal) ∧
  existsb isScroll (trace (V13.scrollToNextReel plainPage)) = false.
Proof.
  assert (Hno : ∀ j e, inDocument plainPage j e → ¬ labelledNext e).
  { apply no_next_button_inv. vm_compute. reflexivity. }
  assert (Hcur : V13.currentVideo plainPage = Some (11%nat, plainVideo)).
  { vm_compute. reflexivity. }
  assert (Hnone : noneOverflowing plainPage 15 (parentElement plainVideo)).
  { apply walkUp_none_inv. vm_compute. reflexivity. }
  split; [done|]. split; [done|]. split; [done|]. split.
  - apply (V12_window_fallback plainPage 11 plainVideo); [done| |done].
    vm_compute. reflexivity.
  - rewrite (V13_no_fallback_with_video plainPage 11 plainVideo) by done. done.
Qed.

(** ** Comparison of quotients *)

Global Arguments Qltb : simpl never.

Lemma Qltb_lt a b : Qltb a b = true ↔ (a < b)%Q.
Proof. unfold Qltb, Qlt. apply Z.ltb_lt. Qed.

Lemma Qltb_ge a b : Qltb a b = false ↔ (b <= a)%Q.
Proof.
  rewrite <- not_true_iff_false, Qltb_lt. split.
  - apply Qnot_lt_le.
  - apply Qle_not_lt.
Qed.

Lemma jsgt_NaN_l y : jsgt NaN y = false.
Proof. done. Qed.

Lemma jsgt_irrefl x : jsgt x x = false.
Proof. destruct x; simpl; try done. apply Qltb_ge, Qle_refl. Qed.

Lemma jsgt_trans x y z : jsgt x y = true → jsgt y z = true → jsgt x z = true.
Proof.
  destruct x, y, z; simpl; try done.
  rewrite !Qltb_lt. intros H1 H2. by apply Qlt_trans with q0.
Qed.

(** A value that does not exceed the running maximum does not exceed a
    larger one either. *)
Lemma jsgt_chain x m m' : jsgt x m = false → jsgt m' m = true → jsgt x m' = false.
Proof.
  destruct x, m, m'; simpl; try done.
  rewrite !Qltb_ge, Qltb_lt. intros H1 H2.
  apply Qlt_le_weak. by apply Qle_lt_trans with q0.
Qed.

Lemma jsgt_eq_compat x y z : jsnum_eq x y → jsgt x z = jsgt y z.
Proof.
  destruct x, y; simpl; try done. intros Heq. destruct z; try done.
  destruct (Qltb q1 q) eqn:E1, (Qltb q1 q0) eqn:E2; try done.
  - apply Qltb_lt in E1. apply Qltb_ge in E2. rewrite Heq in E1.
    by destruct (Qlt_not_le _ _ E1).
  - apply Qltb_lt in E2. apply Qltb_ge in E1. rewrite Heq in E1.
    by destruct (Qlt_not_le _ _ E2).
Qed.

Lemma jsgt_zero_not_eq x : jsgt x (Num 0) = true → ¬ jsnum_eq x (Num 0).
Proof.
  destruct x; simpl; try tauto. rewrite Qltb_lt. intros Hlt Heq.
  rewrite Heq in Hlt. by apply Qlt_irrefl in Hlt.
Qed.

Section Scan.

Variable innerH : Z.

Lemma scanned_start : scanned innerH [] (Num 0, None).
Proof. repeat split; done. Qed.

Lemma scanned_step seen acc w :
  scanned innerH seen acc → scanned innerH (seen ++ [w]) (V13.scanStep innerH acc w).
Proof.
  destruct acc as [m cur]. intros (Hnan & Hmax & Hcur). simpl in *.
  unfold V13.scanStep. simpl. fold (ratioOf innerH w).
  destruct (jsgt (ratioOf innerH w) m) eqn:G.
  - split; [|split]; simpl.
    + intros E. by rewrite E in G.
    + intros u [Hu| [<- |[]]]%in_app_or.
      * by apply jsgt_chain with m; [apply Hmax|].
      * apply jsgt_irrefl.
    + split; [done|]. split.
      * destruct cur as [v|]; [|by subst m].
        destruct Hcur as (_ & Hpos & _). by apply jsgt_trans with m.
      * exists seen, []. split; [done|]. intros u Hu Heq.
        specialize (Hmax u Hu).
        by rewrite (jsgt_eq_compat _ _ m Heq), G in Hmax.
  - split; [done|]. split; simpl.
    + intros u [Hu| [<- |[]]]%in_app_or; [by apply Hmax | done].
    + destruct cur as [v|]; [|done].
      destruct Hcur as (Hv & Hpos & before & after & -> & Hfirst).
      split; [done|]. split; [done|].
      exists before, (after ++ [w]). split; [|done].
      by rewrite <- app_assoc.
Qed.

Lemma scanned_scan videos : ∀ seen acc,
  scanned innerH seen acc → scanned innerH (seen ++ videos) (V13.scan innerH videos acc).
Proof.
  induction videos as [|w videos IH]; intros seen acc Hs.
  - by rewrite app_nil_r.
  - simpl. replace (seen ++ w :: videos) with ((seen ++ [w]) ++ videos)
      by (by rewrite <- app_assoc).
    apply IH. by apply scanned_step.
Qed.


End Scan.

Lemma currentVideo_scanned p :
  scanned (innerHeight p) (querySelectorAll (matchesTag REEL_VIDEO_SELECTOR) p)
    (V13.scan (innerHeight p) (querySelectorAll (matchesTag REEL_VIDEO_SELECTOR) p) (Num 0, None)).
Proof. apply (scanned_scan (innerHeight p) _ [] _), scanned_start. Qed.

Lemma currentVideo_positive p i e :
  V13.currentVideo p = Some (i, e) →
  jsgt (V13.visibility (innerHeight p) e) (Num 0) = true.
Proof.
  unfold V13.currentVideo. intros Hcur.
  destruct (currentVideo_scanned p) as (_ & _ & H). rewrite Hcur in H.
  destruct H as (Hv & Hpos & _). unfold ratioOf in Hv. simpl in Hv. by rewrite Hv.
Qed.


Lemma currentVideo_firstMaximum p i e :
  V13.currentVideo p = Some (i, e) → firstMaximum p i e.
Proof.
  unfold V13.currentVideo. intros Hcur.
  destruct (currentVideo_scanned p) as (_ & Hmax & H). rewrite Hcur in H.
  destruct H as (Hv & Hpos & before & after & Hsplit & Hfirst).
  unfold ratioOf in *. simpl in Hv, Hsplit. rewrite <- Hv in Hpos, Hfirst, Hmax.
  assert (Hin : In (i, e) (querySelectorAll (matchesTag REEL_VIDEO_SELECTOR) p)).
  { rewrite Hsplit. apply in_or_app. right. by left. }
  apply querySelectorAll_spec in Hin as [Hdoc Htag]. apply matchesTag_video in Htag.
  unfold firstMaximum. cbv zeta.
  split; [done|]. split; [done|]. split; [done|]. split.
  - intros j e' Hdoc' Htag'. apply (Hmax (j, e')).
    apply querySelectorAll_spec. split; [done|]. by apply matchesTag_video.
  - by exists before, after.
Qed.












(** The ratios compared are the computed ones.  On [fractionalPage] both
    videos lie entirely inside the viewport; the subtraction and the
    division round the ratio of the first to [1 - 2^-53] and that of the
    second to [1 + 2^-52], and the scan selects the second. *)
Example scan_compares_computed_ratios :
  let top (e : element) := rect_y (getBoundingClientRect e) in
  let height (e : element) := rect_height (getBoundingClientRect e) in
  (0 <= top tallVideo ∧ top tallVideo + height tallVideo <= 800)%Q ∧
  (0 <= top thinVideo ∧ top thinVideo + height thinVideo <= 800)%Q ∧
  jsnum_eq (V13.visibility 800 tallVideo) (Num (1 - (1 # 2 ^ 53))) ∧
  jsnum_eq (V13.visibility 800 thinVideo) (Num (1 + (1 # 2 ^ 52))) ∧
  querySelectorAll (matchesTag REEL_VIDEO_SELECTOR) fractionalPage =
    [(11%nat, tallVideo); (21%nat, thinVideo)] ∧
  V13.currentVideo fractionalPage = Some (21%nat, thinVideo).
Proof.
  cbv zeta. split; [split; vm_compute; discriminate|].
  split; [split; vm_compute; discriminate|].
  split; [vm_compute; reflexivity|]. split; [vm_compute; reflexivity|].
  split; vm_compute; reflexivity.
Qed.

(** A video of height zero has ratio NaN and is passed over: the scan
    selects the half-visible video that follows it. *)
Example scan_passes_over_zero_height :
  V13.visibility 800 flatVideo = NaN ∧
  V13.currentVideo mixedPage = Some (12%nat, halfVideo).
Proof. split; vm_compute; reflexivity. Qed.

(** ** Videos of height zero *)

Lemma roundHalfEven_nonneg N D : 0 <= N → 0 < D → 0 <= roundHalfEven N D.
Proof.
  intros HN HD. unfold roundHalfEven. pose proof (Z.div_pos N D HN HD).
  destruct (2 * (N mod D) ?= D); [destruct (Z.even (N / D))| |]; lia.
Qed.

Lemma scale2_nonneg m k : 0 <= m → (0 <= scale2 m k)%Q.
Proof.
  intros Hm. unfold scale2. destruct (0 <=? k) eqn:K.
  - unfold Qle. simpl. apply Z.leb_le in K. pose proof (Z.pow_nonneg 2 k). nia.
  - unfold Qle. simpl. lia.
Qed.

Lemma roundPos_nonneg n d :
  roundPos n d = PosInfinity ∨ ∃ x, roundPos n d = Num x ∧ (0 <= x)%Q.
Proof.
  unfold roundPos. cbv zeta.
  destruct (_ && _); [by left|]. right. eexists. split; [reflexivity|].
  apply scale2_nonneg. destruct (0 <=? _) eqn:K.
  - apply roundHalfEven_nonneg; [lia|]. apply Z.leb_le in K.
    pose proof (Z.pow_pos_nonneg 2 _ eq_refl K). lia.
  - apply roundHalfEven_nonneg; [|lia].
    pose proof (Z.pow_nonneg 2 (- (Z.max
      (if if 0 <=? Z.log2 (Z.pos n) - Z.log2 (Z.pos d)
          then 2 ^ (Z.log2 (Z.pos n) - Z.log2 (Z.pos d)) * Z.pos d <=? Z.pos n
          else Z.pos d <=? Z.pos n * 2 ^ (- (Z.log2 (Z.pos n) - Z.log2 (Z.pos d)))
       then Z.log2 (Z.pos n) - Z.log2 (Z.pos d)
       else Z.log2 (Z.pos n) - Z.log2 (Z.pos d) - 1) (-1022) - 52))). nia.
Qed.

(** Rounding keeps the sign. *)
Lemma roundDouble_nonpos q :
  (q <= 0)%Q → roundDouble q = NegInfinity ∨ ∃ x, roundDouble q = Num x ∧ (x <= 0)%Q.
Proof.
  intros Hq. unfold roundDouble. destruct q as [n d]. simpl.
  destruct n as [|n|n].
  - right. exists 0%Q. split; [done|]. apply Qle_refl.
  - unfold Qle in Hq. simpl in Hq. lia.
  - destruct (roundPos_nonneg n d) as [->|(x & -> & Hx)]; [by left|].
    right. exists (- x)%Q. split; [done|]. lra.
Qed.

Lemma jsmax_zero_nonpos X :
  (X = NegInfinity ∨ ∃ x, X = Num x ∧ (x <= 0)%Q) →
  ∃ v, jsmax (Num 0) X = Num v ∧ (v == 0)%Q.
Proof.
  intros [->|(x & -> & Hx)].
  - by exists 0%Q.
  - unfold jsmax. simpl. destruct (Qltb x 0) eqn:E.
    + by exists 0%Q.
    + exists x. split; [done|]. apply Qltb_ge in E. by apply Qle_antisym.
Qed.

Lemma visibleHeight_zero_height innerH r :
  (rect_height r == 0)%Q → ∃ v, V13.visibleHeight innerH r = Num v ∧ (v == 0)%Q.
Proof.
  intros Hh. unfold V13.visibleHeight, rect_bottom, rect_top.
  assert (Hadd : jsadd (Num (rect_y r)) (Num (rect_height r)) = Num (rect_y r)).
  { unfold jsadd. by rewrite (proj2 (Qeq_bool_iff _ _) Hh). }
  rewrite Hadd. generalize (rect_y r). intros y.
  assert (Hmax : jsmax (Num y) (Num y) = Num y) by (unfold jsmax; simpl; by destruct (Qltb y y)).
  assert (Hmin : jsmin (Num y) (Num y) = Num y) by (unfold jsmin; simpl; by destruct (Qltb y y)).
  rewrite Hmax, Hmin. generalize (inject_Z innerH). intros H.
  apply jsmax_zero_nonpos. unfold jsmin, jsmax. simpl.
  destruct (Qltb y H) eqn:E1, (Qltb 0 y) eqn:E2; unfold jssub;
    try apply Qltb_lt in E1; try apply Qltb_ge in E1;
    try apply Qltb_lt in E2; try apply Qltb_ge in E2;
    match goal with
    | |- context [Qeq_bool ?u 0] =>
      let E := fresh "E" in
      destruct (Qeq_bool u 0) eqn:E;
        [apply Qeq_bool_iff in E; right; eexists; split; [reflexivity|lra]
        |apply roundDouble_nonpos; lra]
    end.
Qed.

Lemma jsdiv_zero_zero a b : (a == 0)%Q → (b == 0)%Q → jsdiv (Num a) (Num b) = NaN.
Proof.
  intros Ha Hb. unfold jsdiv.
  apply Qeq_bool_iff in Ha. apply Qeq_bool_iff in Hb. by rewrite Hb, Ha.
Qed.

(** C10. A video whose bounding rectangle has height zero has visible height
    zero; its quotient is the NaN of the zero-by-zero division, which is
    greater than no running maximum; the scan step leaves the running
    maximum and the current video as they were, and the scan never returns
    such a video. *)
Theorem C10_zero_height_video_is_never_selected (innerH : Z) (e : element) :
  (rect_height (getBoundingClientRect e) == 0)%Q →
  jsnum_eq (V13.visibleHeight innerH (getBoundingClientRect e)) (Num 0) ∧
  (∀ m, jsgt (V13.visibility innerH e) m = false) ∧
  (∀ acc i, V13.scanStep innerH acc (i, e) = acc) ∧
  (∀ p i, innerHeight p = innerH → V13.currentVideo p ≠ Some (i, e)).
Proof.
  intros Hh.
  destruct (visibleHeight_zero_height innerH _ Hh) as (v & Hv & Hv0).
  assert (Hnan : V13.visibility innerH e = NaN).
  { unfold V13.visibility. rewrite Hv. by apply jsdiv_zero_zero. }
  split; [by rewrite Hv|]. split; [|split].
  - intros m. by rewrite Hnan.
  - intros acc i. unfold V13.scanStep. simpl. by rewrite Hnan.
  - intros p i <- Hcur. apply currentVideo_positive in Hcur.
    by rewrite Hnan in Hcur.
Qed.

Lemma C10_zero_height_video_is_never_selected_witness :
  jsnum_eq (V13.visibleHeight 800 (getBoundingClientRect flatVideo)) (Num 0) ∧
  (∀ m, jsgt (V13.visibility 800 flatVideo) m = false) ∧
  (∀ acc i, V13.scanStep 800 acc (i, flatVideo) = acc) ∧
  V13.currentVideo flatPage ≠ Some (11%nat, flatVideo).
Proof.
  destruct (C10_zero_height_video_is_never_selected 800 flatVideo) as (Hv & Hgt & Hstep & Hcur).
  - reflexivity.
  - split; [exact Hv|]. split; [exact Hgt|]. split; [exact Hstep|].
    apply Hcur. reflexivity.
Defined.

(** ** Wiring is idempotent *)

Lemma preserves_skip I : preserves I skip.
Proof. by intros p. Qed.

Lemma preserves_emit I x : preserves I (emit x).
Proof. by intros p. Qed.

Lemma preserves_isolated I s : preserves I s → preserves I (isolated s).
Proof.
  intros Hs p Hp. specialize (Hs p Hp). unfold isolated.
  by destruct (s p) as [[p1 t1] c1].
Qed.

Lemma preserves_scrollToNextReel I : preserves I V13.scrollToNextReel.
Proof. intros p Hp. by rewrite V13_scrollToNextReel_final. Qed.

Lemma preserves_seq I a b : preserves I a → preserves I b → preserves I (a ;; b).
Proof.
  intros Ha Hb p Hp. unfold seq. specialize (Ha p Hp).
  destruct (a p) as [[p1 t1] c1]. simpl in Ha. destruct c1; [|done].
  specialize (Hb p1 Ha). by destruct (b p1) as [[p2 t2] c2].
Qed.

Lemma preserves_forEach {A} I (f : A → script) l :
  (∀ x, preserves I (f x)) → preserves I (forEach f l).
Proof.
  intros Hf. induction l as [|x l IH]; simpl.
  - apply preserves_skip.
  - by apply preserves_seq.
Qed.

Lemma preserves_times I n s : preserves I s → preserves I (times n s).
Proof.
  intros Hs. induction n as [|n IH]; simpl.
  - apply preserves_skip.
  - by apply preserves_seq.
Qed.

Lemma consistent_wire l e :
  consistent e → truthy (autoScrollListenerAttached e) = false → wiredOnce (wire l e).
Proof.
  intros [[Ht _]|[_ Hl]] Hf; [congruence|].
  split; [done|]. simpl. by rewrite Hl.
Qed.

Lemma allConsistent_store v e l fresh p :
  allConsistent p → nodes p !! v = Some e →
  truthy (autoScrollListenerAttached e) = false →
  allConsistent (storeElement v (wire l e) fresh p).
Proof.
  intros Hall Hv Hf w ew. simpl. rewrite lookup_insert. case_decide.
  - intros [= <-]. left. apply consistent_wire; [by apply (Hall v)|done].
  - apply Hall.
Qed.

Lemma marked_store v w e l fresh p :
  marked v p → marked v (storeElement w (wire l e) fresh p).
Proof.
  intros [ev [Hv Ht]]. unfold marked. simpl. rewrite lookup_insert. case_decide.
  - by eexists.
  - by exists ev.
Qed.

(** A step of the script that changes the page only by wiring elements. *)
Ltac wiring_step :=
  match goal with
  | |- context [match nodes ?p !! ?v with _ => _ end] =>
    let E := fresh "E" in destruct (nodes p !! v) eqn:E; try done
  | |- context [if truthy ?m then _ else _] =>
    let T := fresh "T" in destruct (truthy m) eqn:T; try done
  end.

Lemma V13_add_consistent v : preserves allConsistent (V13.addListenerToVideo v).
Proof.
  intros p Hp. unfold V13.addListenerToVideo. repeat wiring_step.
  simpl. by apply allConsistent_store.
Qed.

Lemma V12_add_consistent v : preserves allConsistent (V12.addListenerToVideo v).
Proof.
  intros p Hp. unfold V12.addListenerToVideo. repeat wiring_step.
  simpl. by apply allConsistent_store.
Qed.

Lemma V13_add_marked v w : preserves (marked v) (V13.addListenerToVideo w).
Proof.
  intros p Hp. unfold V13.addListenerToVideo. repeat wiring_step.
  simpl. by apply marked_store.
Qed.

Lemma V12_add_marked v w : preserves (marked v) (V12.addListenerToVideo w).
Proof.
  intros p Hp. unfold V12.addListenerToVideo. repeat wiring_step.
  simpl. by apply marked_store.
Qed.

Lemma V13_handleDomChanges_preserves I mutationsList :
  (∀ v, preserves I (V13.addListenerToVideo v)) →
  preserves I (V13.handleDomChanges mutationsList).
Proof.
  intros Hadd. apply preserves_forEach. intros mutation.
  unfold V13.handleMutation. destruct (_ && _); [|apply preserves_skip].
  apply preserves_forEach. intros [i|] p Hp; [|done].
  unfold V13.handleAddedNode. destruct (nodes p !! i) as [e|]; [|done].
  destruct (matchesTag _ e); [by apply Hadd|].
  by apply preserves_forEach.
Qed.

Lemma V12_handleDomChanges_preserves I mutationsList :
  (∀ v, preserves I (V12.addListenerToVideo v)) →
  preserves I (V12.handleDomChanges mutationsList).
Proof.
  intros Hadd. apply preserves_forEach. intros mutation.
  unfold V12.handleMutation. destruct (_ && _); [|apply preserves_skip].
  apply preserves_forEach. intros [i|] p Hp; [|done].
  unfold V12.handleAddedNode. destruct (nodes p !! i) as [e|]; [|done].
  destruct (matchesTag _ e); [by apply Hadd|].
  by apply preserves_forEach.
Qed.

(** After one call the element is marked. *)
Lemma V13_add_marks v e p :
  nodes p !! v = Some e → marked v (final (V13.addListenerToVideo v p)).
Proof.
  intros Hv. unfold V13.addListenerToVideo. rewrite Hv.
  destruct (truthy _) eqn:T; simpl.
  - by exists e.
  - unfold marked. simpl. rewrite lookup_insert_eq. by eexists.
Qed.

Lemma V12_add_marks v e p :
  nodes p !! v = Some e → marked v (final (V12.addListenerToVideo v p)).
Proof.
  intros Hv. unfold V12.addListenerToVideo. rewrite Hv.
  destruct (truthy _) eqn:T; simpl.
  - by exists e.
  - unfold marked. simpl. rewrite lookup_insert_eq. by eexists.
Qed.

(** A call on a marked element does nothing. *)
Lemma V13_add_marked_noop v p :
  marked v p → V13.addListenerToVideo v p = (p, [], Normal).
Proof.
  intros [e [Hv Ht]]. unfold V13.addListenerToVideo. by rewrite Hv, Ht.
Qed.

Lemma V12_add_marked_noop v p :
  marked v p → V12.addListenerToVideo v p = (p, [], Normal).
Proof.
  intros [e [Hv Ht]]. unfold V12.addListenerToVideo. by rewrite Hv, Ht.
Qed.

Lemma V13_add_absent_noop v p :
  nodes p !! v = None → V13.addListenerToVideo v p = (p, [], Normal).
Proof. intros Hv. unfold V13.addListenerToVideo. by rewrite Hv. Qed.

Lemma V12_add_absent_noop v p :
  nodes p !! v = None → V12.addListenerToVideo v p = (p, [], Normal).
Proof. intros Hv. unfold V12.addListenerToVideo. by rewrite Hv. Qed.

Lemma marked_consistent_wiredOnce v p :
  allConsistent p → marked v p → ∃ e, nodes p !! v = Some e ∧ wiredOnce e.
Proof.
  intros Hall [e [Hv Ht]]. exists e. split; [done|].
  destruct (Hall v e Hv) as [H|[Hf _]]; [done|congruence].
Qed.

Lemma wiredOnceAt_marked v p : wiredOnceAt v p → marked v p.
Proof. intros [e [Hv [Ht _]]]. by exists e. Qed.

Lemma wiredOnceAt_store v w ew l fresh p :
  wiredOnceAt v p → nodes p !! w = Some ew →
  truthy (autoScrollListenerAttached ew) = false →
  wiredOnceAt v (storeElement w (wire l ew) fresh p).
Proof.
  intros [e [Hv [Ht Hl]]] Hw Hf. unfold wiredOnceAt. simpl.
  rewrite lookup_insert. case_decide.
  - subst w. congruence.
  - by exists e.
Qed.

Lemma V13_add_wiredOnceAt v w : preserves (wiredOnceAt v) (V13.addListenerToVideo w).
Proof.
  intros p Hp. unfold V13.addListenerToVideo. repeat wiring_step.
  simpl. by apply wiredOnceAt_store.
Qed.

Lemma V12_add_wiredOnceAt v w : preserves (wiredOnceAt v) (V12.addListenerToVideo w).
Proof.
  intros p Hp. unfold V12.addListenerToVideo. repeat wiring_step.
  simpl. by apply wiredOnceAt_store.
Qed.

Lemma V13_add_wires v e p :
  nodes p !! v = Some e → consistent e →
  wiredOnceAt v (final (V13.addListenerToVideo v p)).
Proof.
  intros Hv Hc. unfold V13.addListenerToVideo. rewrite Hv.
  destruct (truthy _) eqn:T; simpl.
  - exists e. split; [done|]. destruct Hc as [H|[Hf _]]; [done|congruence].
  - unfold wiredOnceAt. simpl. rewrite lookup_insert_eq. eexists. split; [done|].
    by apply consistent_wire.
Qed.

Lemma V12_add_wires v e p :
  nodes p !! v = Some e → consistent e →
  wiredOnceAt v (final (V12.addListenerToVideo v p)).
Proof.
  intros Hv Hc. unfold V12.addListenerToVideo. rewrite Hv.
  destruct (truthy _) eqn:T; simpl.
  - exists e. split; [done|]. destruct Hc as [H|[Hf _]]; [done|congruence].
  - unfold wiredOnceAt. simpl. rewrite lookup_insert_eq. eexists. split; [done|].
    by apply consistent_wire.
Qed.

Lemma times_noop n s p : s p = (p, [], Normal) → times n s p = (p, [], Normal).
Proof.
  intros Hs. induction n as [|n IH]; [done|].
  simpl. unfold seq. by rewrite Hs, IH.
Qed.

(** C7. Take any video element whose marker agrees with its listener list
    (unmarked with no listener, as every element is before the script runs,
    or marked with one).  After the first call of [addListenerToVideo] the
    element is marked and carries exactly one ended listener; a second call,
    and any further number of calls, returns the page as it is and logs
    nothing; and whatever batches of mutation records the observer callback
    is run on afterwards, overlapping or not, the element is still marked and
    still carries exactly one listener.  This holds for both revisions. *)
Theorem C7_wiring_is_idempotent (p : page) (v : nat) (e : element) :
  nodes p !! v = Some e → consistent e →
  (let p1 := final (V13.addListenerToVideo v p) in
   wiredOnceAt v p1 ∧
   V13.addListenerToVideo v p1 = (p1, [], Normal) ∧
   (∀ n, times n (V13.addListenerToVideo v) p1 = (p1, [], Normal)) ∧
   (∀ w, wiredOnceAt v (final (V13.addListenerToVideo w p1))) ∧
   (∀ batches, wiredOnceAt v (final (forEach V13.handleDomChanges batches p1)))) ∧
  (let p1 := final (V12.addListenerToVideo v p) in
   wiredOnceAt v p1 ∧
   V12.addListenerToVideo v p1 = (p1, [], Normal) ∧
   (∀ n, times n (V12.addListenerToVideo v) p1 = (p1, [], Normal)) ∧
   (∀ w, wiredOnceAt v (final (V12.addListenerToVideo w p1))) ∧
   (∀ batches, wiredOnceAt v (final (forEach V12.handleDomChanges batches p1)))).
Proof.
  intros Hv Hc. split; cbv zeta.
  - pose proof (V13_add_wires v e p Hv Hc) as H1.
    pose proof (V13_add_marked_noop v _ (wiredOnceAt_marked _ _ H1)) as Hnoop.
    split; [done|]. split; [done|]. split; [|split].
    + intros n. by apply times_noop.
    + intros w. by apply V13_add_wiredOnceAt.
    + intros batches. apply preserves_forEach; [|done].
      intros muts. apply V13_handleDomChanges_preserves.
      intros w. apply V13_add_wiredOnceAt.
  - pose proof (V12_add_wires v e p Hv Hc) as H1.
    pose proof (V12_add_marked_noop v _ (wiredOnceAt_marked _ _ H1)) as Hnoop.
    split; [done|]. split; [done|]. split; [|split].
    + intros n. by apply times_noop.
    + intros w. by apply V12_add_wiredOnceAt.
    + intros batches. apply preserves_forEach; [|done].
      intros muts. apply V12_handleDomChanges_preserves.
      intros w. apply V12_add_wiredOnceAt.
Qed.

Lemma C7_wiring_is_idempotent_witness :
  wiredOnceAt 11 (final (V13.addListenerToVideo 11 feedPage)) ∧
  wiredOnceAt 11 (final (V12.addListenerToVideo 11 feedPage)).
Proof.
  destruct (C7_wiring_is_idempotent feedPage 11 feedVideo) as [H13 H12].
  - vm_compute. reflexivity.
  - right. split; reflexivity.
  - split; [apply H13 | apply H12].
Defined.

Example wiring_twice_leaves_one_listener :
  endedListeners <$>
    nodes (final ((V13.addListenerToVideo 11 ;; V13.addListenerToVideo 11) feedPage)) !! 11%nat
  = Some [ArrowClosure 0].
Proof. vm_compute. reflexivity. Qed.

(** ** The current video of an ended event *)

Lemma forEach_single {A} (f : A → script) x p :
  trace (forEach f [x] p) = trace (f x p) ∧ final (forEach f [x] p) = final (f x p).
Proof.
  simpl. unfold seq, skip. destruct (f x p) as [[p1 t1] c1].
  destruct c1; simpl; [|done]. by rewrite app_nil_r.
Qed.

Lemma trace_isolated s p : trace (isolated s p) = trace (s p).
Proof. unfold isolated. by destruct (s p) as [[p1 t1] c1]. Qed.

Lemma V12_dispatch_single p video e :
  nodes p !! video = Some e → endedListeners e = [NamedScrollToNextReel] →
  trace (V12.dispatchEnded video p) = trace (V12.scrollToNextReel {| target := Some video |} p).
Proof.
  intros Hv Hl. unfold V12.dispatchEnded. rewrite Hv, Hl.
  rewrite (proj1 (forEach_single _ _ _)). apply trace_isolated.
Qed.

Lemma V13_dispatch_single p video e n :
  nodes p !! video = Some e → endedListeners e = [ArrowClosure n] →
  trace (V13.dispatchEnded video p) = trace (V13.scrollToNextReel p).
Proof.
  intros Hv Hl. unfold V13.dispatchEnded. rewrite Hv, Hl.
  rewrite (proj1 (forEach_single _ _ _)). apply trace_isolated.
Qed.

Lemma V12_scroll_from_target p video e c top left b :
  nodes p !! video = Some e →
  In (ElementScrollBy c top left b) (trace (V12.scrollToNextReel {| target := Some video |} p)) →
  ∃ container, walkUp p 15 (parentElement e) = Some (c, container).
Proof.
  intros Hv. rewrite V12_scrollToNextReel_cases. unfold V12.currentVideo. cbv [target].
  rewrite Hv. change (Some e ≫= parentElement) with (parentElement e).
  destruct (querySelector _ _) as [[nb eb]|].
  - destruct (isHTMLElement eb).
    + intros [H|[H|[H|[]]]]; discriminate H.
    + intros [H|[H|[]]]; discriminate H.
  - cbn [trace fst snd]. destruct (walkUp p 15 (parentElement e)) as [[c' container]|].
    + intros [H|[H|[H|[H|[]]]]]; try discriminate H.
      injection H as -> _ _ _. by exists container.
    + intros [H|[H|[H|[H|[]]]]]; discriminate H.
Qed.

Lemma V13_scroll_from_scan p : searchStartsAtScan (trace (V13.scrollToNextReel p)) p.
Proof.
  intros c top left b. rewrite V13_scrollToNextReel_cases.
  destruct (querySelector _ _) as [[nb eb]|].
  - destruct (isHTMLElement eb).
    + intros [H|[H|[H|[]]]]; discriminate H.
    + intros [H|[H|[]]]; discriminate H.
  - cbn [trace fst snd]. destruct (V13.currentVideo p) as [[i cur]|].
    + destruct (walkUp p 15 (parentElement cur)) as [[c' container]|] eqn:W.
      * intros [H|[H|[H|[H|[]]]]]; try discriminate H.
        injection H as -> _ _ _. by exists i, cur, container.
      * intros [H|[H|[H|[]]]]; discriminate H.
    + intros [H|[H|[H|[H|[H|[]]]]]]; discriminate H.
Qed.

(** C4, as stated, fails on v1.3.  After the script has wired [twoFeeds], the
    ended event of video 11 makes v1.3 scroll container 20, the parent of
    video 21 which the scan selects, and not container 10, the parent of the
    video that ended. *)
Lemma C4_ended_video_is_not_the_search_start_in_v13 :
  trace (V13.dispatchEnded 11 wiredTwoFeeds13) =
    [ Console LogL "Scroll triggered. Attempting to find next reel." [];
      Console WarnL "Could not find 'Next' button. Trying Method 2: Find and scroll container." [];
      Console LogL "Success (Method 2): Found scrollable container. Scrolling by ${scrollAmount}px."
        [VNum 800; VElem 20];
      ElementScrollBy 20 800 0 "smooth" ] ∧
  fst <$> V13.currentVideo wiredTwoFeeds13 = Some 21%nat ∧
  ¬ endedSearchStartsAtTarget V13.dispatchEnded wiredTwoFeeds13 11.
Proof.
  assert (Ht : trace (V13.dispatchEnded 11 wiredTwoFeeds13) =
    [ Console LogL "Scroll triggered. Attempting to find next reel." [];
      Console WarnL "Could not find 'Next' button. Trying Method 2: Find and scroll container." [];
      Console LogL "Success (Method 2): Found scrollable container. Scrolling by ${scrollAmount}px."
        [VNum 800; VElem 20];
      ElementScrollBy 20 800 0 "smooth" ]).
  { vm_compute. reflexivity. }
  split; [exact Ht|]. split; [vm_compute; reflexivity|].
  intros H. destruct (H 20%nat 800 0 "smooth") as (e & container & He & Hw).
  - rewrite Ht. do 3 right. by left.
  - vm_compute in He. injection He as <-. vm_compute in Hw. discriminate Hw.
Qed.

(** C4, amended.  In v1.2 the ended listener is [scrollToNextReel] itself:
    the current video is the target of the event, and a container scroll
    starts the ancestor walk there.  In v1.3 the listener is an arrow function
    that calls [scrollToNextReel()] without the event: the run is the same
    for whichever video ended, and a container scroll starts the ancestor
    walk at the video selected by the visibility scan. *)
Theorem C4_ended_event_current_video (p : page) (video : nat) (e : element) :
  nodes p !! video = Some e →
  (endedListeners e = [NamedScrollToNextReel] →
     trace (V12.dispatchEnded video p) = trace (V12.scrollToNextReel {| target := Some video |} p) ∧
     V12.currentVideo {| target := Some video |} = Some video ∧
     endedSearchStartsAtTarget V12.dispatchEnded p video) ∧
  (∀ n, endedListeners e = [ArrowClosure n] →
     trace (V13.dispatchEnded video p) = trace (V13.scrollToNextReel p) ∧
     searchStartsAtScan (trace (V13.dispatchEnded video p)) p).
Proof.
  intros Hv. split.
  - intros Hl. pose proof (V12_dispatch_single p video e Hv Hl) as Ht.
    split; [done|]. split; [done|].
    intros c top left b Hin. rewrite Ht in Hin.
    destruct (V12_scroll_from_target p video e c top left b Hv Hin) as [container Hw].
    by exists e, container.
  - intros n Hl. pose proof (V13_dispatch_single p video e n Hv Hl) as Ht.
    split; [done|]. rewrite Ht. apply V13_scroll_from_scan.
Qed.

Lemma C4_ended_event_current_video_witness :
  endedSearchStartsAtTarget V12.dispatchEnded wiredTwoFeeds12 11 ∧
  trace (V13.dispatchEnded 11 wiredTwoFeeds13) = trace (V13.scrollToNextReel wiredTwoFeeds13).
Proof.
  split.
  - apply (proj1 (C4_ended_event_current_video wiredTwoFeeds12 11
                    (wire NamedScrollToNextReel leavingVideo) eq_refl)).
    reflexivity.
  - apply (proj2 (C4_ended_event_current_video wiredTwoFeeds13 11
                    (wire (ArrowClosure 0) leavingVideo) eq_refl) 0%nat).
    reflexivity.
Defined.

Example v12_scrolls_the_container_of_the_ended_video :
  trace (V12.dispatchEnded 11 wiredTwoFeeds12) =
    [ Console LogL "Reel finished. Attempting smart scroll." [];
      Console WarnL "Could not find 'Next' button. Trying Method 2: Find and scroll container." [];
      Console LogL "Success (Method 2): Found scrollable container. Scrolling by ${scrollAmount}px."
        [VNum 700; VElem 10];
      ElementScrollBy 10 700 0 "smooth" ].
Proof. vm_compute. reflexivity. Qed.

(** ** The spoken command *)

Lemma trimStart_app_trimmable pre s : allTrimmable pre → trimStart (pre ++ s) = trimStart s.
Proof.
  induction 1 as [|u pre Hu _ IH]; [done|]. simpl. by rewrite Hu.
Qed.

Lemma trimStart_letter u s : isTrimmable u = false → trimStart (u :: s) = u :: s.
Proof. intros Hu. simpl. by rewrite Hu. Qed.

Lemma allTrimmable_rev ws : allTrimmable ws → allTrimmable (rev ws).
Proof. apply Forall_rev. Qed.

Lemma spellsNext_cases w :
  spellsNext w →
  ∃ a b c d, w = [a; b; c; d] ∧
    (a = 110 ∨ a = 78)%N ∧ (b = 101 ∨ b = 69)%N ∧ (c = 120 ∨ c = 88)%N ∧ (d = 116 ∨ d = 84)%N.
Proof.
  unfold spellsNext, sameLetter. intros H.
  change (lit "next") with [110; 101; 120; 116]%N in H.
  repeat match goal with
         | H : Forall2 _ _ (_ :: _) |- _ =>
           apply Forall2_cons_inv_r in H as (? & ? & ? & H & ->)
         | H : Forall2 _ _ [] |- _ => apply Forall2_nil_inv_r in H as ->
         end.
  do 4 eexists. split; [reflexivity|]. repeat split; lia.
Qed.

Lemma trim_spellsNext pre w post :
  allTrimmable pre → allTrimmable post → spellsNext w →
  toLowerCase (trim (pre ++ w ++ post)) = lit "next".
Proof.
  intros Hpre Hpost Hw.
  destruct (spellsNext_cases w Hw) as (a & b & c & d & -> & Ha & Hb & Hc & Hd).
  assert (Hfirst : isTrimmable a = false) by (by destruct Ha as [-> | ->]).
  assert (Hlast : isTrimmable d = false) by (by destruct Hd as [-> | ->]).
  unfold trim, trimEnd. rewrite trimStart_app_trimmable by done.
  change ([a; b; c; d] ++ post) with (a :: [b; c; d] ++ post).
  rewrite trimStart_letter by done.
  change (a :: [b; c; d] ++ post) with ([a; b; c; d] ++ post).
  rewrite rev_app_distr, trimStart_app_trimmable by (by apply allTrimmable_rev).
  change (rev [a; b; c; d]) with [d; c; b; a].
  rewrite trimStart_letter by done.
  destruct Ha as [-> | ->], Hb as [-> | ->], Hc as [-> | ->], Hd as [-> | ->]; reflexivity.
Qed.

Lemma scrollToNextReel_length p : (2 <= length (trace (V13.scrollToNextReel p)))%nat.
Proof.
  rewrite V13_scrollToNextReel_cases.
  destruct (querySelector _ _) as [[nb eb]|]; [destruct (isHTMLElement eb); simpl; lia|].
  cbn [trace fst snd]. destruct (V13.currentVideo p) as [[i cur]|]; [|simpl; lia].
  destruct (walkUp p 15 (parentElement cur)) as [[c container]|]; simpl; lia.
Qed.

Lemma last_result {A} (earlier : list (list A)) (best : A) others :
  let results := earlier ++ [best :: others] in
  results !! (length results - 1)%nat ≫= (fun r => r !! 0%nat) = Some best.
Proof.
  cbv zeta. rewrite length_app. simpl.
  replace (length earlier + 1 - 1)%nat with (length earlier) by lia.
  by rewrite list_lookup_middle.
Qed.

Lemma onresult_next p earlier best others :
  toLowerCase (trim (V13.transcript best)) = lit "next" →
  V13.onresult (earlier ++ [best :: others]) p =
    (p, [ heard (lit "next");
          Console LogL "'Next' command recognized. Scrolling..." [] ] ++ trace (V13.scrollToNextReel p),
     outcome (V13.scrollToNextReel p)).
Proof.
  intros Hc. unfold V13.onresult. rewrite last_result, Hc.
  unfold jsstring_eqb. rewrite bool_decide_eq_true_2 by done.
  unfold seq, emit. pose proof (V13_scrollToNextReel_final p) as Hf.
  destruct (V13.scrollToNextReel p) as [[p1 t1] c1]. cbv [final fst] in Hf. subst p1.
  by destruct c1.
Qed.

Lemma onresult_other p earlier best others :
  toLowerCase (trim (V13.transcript best)) ≠ lit "next" →
  V13.onresult (earlier ++ [best :: others]) p =
    (p, [ heard (toLowerCase (trim (V13.transcript best))) ], Normal).
Proof.
  intros Hc. unfold V13.onresult. rewrite last_result.
  unfold jsstring_eqb. rewrite bool_decide_eq_false_2 by done. reflexivity.
Qed.

(** C6. Let [best] be the first alternative of the last result of a
    recognition event and [command] its transcript trimmed and lower-cased.
    The callback runs [scrollToNextReel] if and only if [command] is the
    string next; then its requests are two console lines followed by the very
    requests of [scrollToNextReel], which are also those of a video-end
    event.  Otherwise the only request is the console line reporting what was
    heard.  A transcript spelling next in any mix of cases, with any white
    space around it, gives the command next; the transcript previous does
    not. *)
Theorem C6_voice_command_next (p : page) (earlier : list (list V13.alternative))
    (best : V13.alternative) (others : list V13.alternative) :
  let results := earlier ++ [best :: others] in
  let command := toLowerCase (trim (V13.transcript best)) in
  (command = lit "next" ↔
     ∃ pre, trace (V13.onresult results p) = pre ++ trace (V13.scrollToNextReel p)) ∧
  (command = lit "next" →
     V13.onresult results p =
       (p, [ heard (lit "next");
             Console LogL "'Next' command recognized. Scrolling..." [] ] ++ trace (V13.scrollToNextReel p),
        outcome (V13.scrollToNextReel p))) ∧
  (command ≠ lit "next" → V13.onresult results p = (p, [ heard command ], Normal)) ∧
  (∀ pre w post, allTrimmable pre → allTrimmable post → spellsNext w →
     V13.transcript best = pre ++ w ++ post → command = lit "next") ∧
  (V13.transcript best = lit "previous" →
     V13.onresult results p = (p, [ heard (lit "previous") ], Normal)) ∧
  (∀ video e n, nodes p !! video = Some e → endedListeners e = [ArrowClosure n] →
     command = lit "next" →
     trace (V13.onresult results p) =
       [ heard (lit "next");
         Console LogL "'Next' command recognized. Scrolling..." [] ] ++
       trace (V13.dispatchEnded video p)).
Proof.
  cbv zeta. split; [|split; [|split; [|split; [|split]]]].
  - split.
    + intros Hc. rewrite (onresult_next p earlier best others Hc). eexists [_; _]. reflexivity.
    + intros [pre Ht].
      destruct (decide (toLowerCase (trim (V13.transcript best)) = lit "next")) as [Hc|Hc]; [done|].
      rewrite (onresult_other p earlier best others Hc) in Ht.
      apply (f_equal length) in Ht. rewrite length_app in Ht.
      pose proof (scrollToNextReel_length p). cbn [length trace fst snd] in Ht. lia.
  - apply onresult_next.
  - apply onresult_other.
  - intros pre w post Hpre Hpost Hw ->. by apply trim_spellsNext.
  - intros Ht. rewrite (onresult_other p earlier best others); rewrite Ht; [done|].
    vm_compute. discriminate.
  - intros video e n Hv Hl Hc. rewrite (onresult_next p earlier best others Hc).
    by rewrite (V13_dispatch_single p video e n Hv Hl).
Qed.

Lemma C6_voice_command_next_witness :
  V13.onresult [ [ {| V13.transcript := lit "  NeXt " |} ] ] feedPage =
    (feedPage,
     [ heard (lit "next");
       Console LogL "'Next' command recognized. Scrolling..." [] ] ++ trace (V13.scrollToNextReel feedPage),
     outcome (V13.scrollToNextReel feedPage)) ∧
  V13.onresult [ [ {| V13.transcript := lit "previous" |} ] ] feedPage =
    (feedPage, [ heard (lit "previous") ], Normal).
Proof.
  split.
  - destruct (C6_voice_command_next feedPage [] {| V13.transcript := lit "  NeXt " |} [])
      as (_ & Hrun & _ & Hspell & _).
    apply Hrun. apply (Hspell (lit "  ") (lit "NeXt") (lit " ")).
    + repeat constructor.
    + repeat constructor.
    + repeat constructor; vm_compute; tauto.
    + reflexivity.
  - destruct (C6_voice_command_next feedPage [] {| V13.transcript := lit "previous" |} [])
      as (_ & _ & _ & _ & Hprev & _).
    apply Hprev. reflexivity.
Defined.

(** ** Restarting the session *)

Lemma restarts_app t1 t2 : restarts (t1 ++ t2) = (restarts t1 + restarts t2)%nat.
Proof. unfold restarts. by rewrite List.filter_app, length_app. Qed.

Lemma restarts_In t : In RecognitionStart t ↔ restarts t ≠ 0%nat.
Proof.
  unfold restarts. induction t as [|x t IH]; simpl; [tauto|].
  destruct x; simpl; rewrite ?IH; try (split; [intros [H|H]; [discriminate H|done] | tauto]).
  split; [lia | tauto].
Qed.

Lemma quiet_skip : quiet skip.
Proof. by intros p. Qed.

Lemma quiet_throw x : quiet (throw x).
Proof. by intros p. Qed.

Lemma quiet_emit x : isStart x = false → quiet (emit x).
Proof. intros Hx p. unfold restarts. simpl. by rewrite Hx. Qed.

Lemma quiet_isolated s : quiet s → quiet (isolated s).
Proof.
  intros Hs p. specialize (Hs p). unfold isolated.
  by destruct (s p) as [[p1 t1] c1].
Qed.

Lemma quiet_seq a b : quiet a → quiet b → quiet (a ;; b).
Proof.
  intros Ha Hb p. unfold seq. specialize (Ha p).
  destruct (a p) as [[p1 t1] c1]. destruct c1; [|done].
  specialize (Hb p1). destruct (b p1) as [[p2 t2] c2].
  unfold trace in *. simpl in *. rewrite restarts_app. lia.
Qed.

Lemma quiet_forEach {A} (f : A → script) l : (∀ x, quiet (f x)) → quiet (forEach f l).
Proof.
  intros Hf. induction l as [|x l IH]; simpl.
  - apply quiet_skip.
  - by apply quiet_seq.
Qed.

Lemma scrollToNextReel_quiet p : restarts (trace (V13.scrollToNextReel p)) = 0%nat.
Proof.
  rewrite V13_scrollToNextReel_cases.
  destruct (querySelector _ _) as [[nb eb]|]; [by destruct (isHTMLElement eb)|].
  cbn [trace fst snd]. destruct (V13.currentVideo p) as [[i cur]|]; [|done].
  by destruct (walkUp p 15 (parentElement cur)) as [[c container]|].
Qed.

Lemma V13_add_quiet v : quiet (V13.addListenerToVideo v).
Proof. intros p. unfold V13.addListenerToVideo. by repeat wiring_step. Qed.

Lemma V13_handleDomChanges_quiet mutationsList : quiet (V13.handleDomChanges mutationsList).
Proof.
  apply quiet_forEach. intros mutation.
  unfold V13.handleMutation. destruct (_ && _); [|apply quiet_skip].
  apply quiet_forEach. intros [i|] p; [|done].
  unfold V13.handleAddedNode. destruct (nodes p !! i) as [e|]; [|done].
  destruct (matchesTag _ e); [apply V13_add_quiet|].
  apply quiet_forEach, V13_add_quiet.
Qed.

Lemma V13_dispatchEnded_quiet video : quiet (V13.dispatchEnded video).
Proof.
  intros p. unfold V13.dispatchEnded. destruct (nodes p !! video) as [e|]; [|done].
  apply quiet_forEach. intros [|n].
  - apply quiet_skip.
  - apply quiet_isolated. exact scrollToNextReel_quiet.
Qed.

Lemma V13_onresult_quiet results : quiet (V13.onresult results).
Proof.
  unfold V13.onresult. destruct (_ ≫= _) as [best|]; [|apply quiet_throw].
  apply quiet_seq; [by apply quiet_emit|].
  destruct (jsstring_eqb _ _); [|apply quiet_skip].
  apply quiet_seq; [by apply quiet_emit|]. exact scrollToNextReel_quiet.
Qed.

Lemma V13_onerror_quiet error : quiet (V13.onerror error).
Proof. unfold V13.onerror. destruct (String.eqb _ _); by apply quiet_emit. Qed.

Lemma V13_add_keepsSession v : keepsSession (V13.addListenerToVideo v).
Proof. intros r p Hp. unfold V13.addListenerToVideo. by repeat wiring_step. Qed.

Lemma preserves_throw I x : preserves I (throw x).
Proof. by intros p. Qed.

Lemma V13_handle_keepsSession ev : keepsSession (V13.handle ev).
Proof.
  intros r p Hp. destruct ev as [video|mutationsList|results| |error]; simpl.
  - unfold V13.dispatchEnded. destruct (nodes p !! video) as [e|]; [|done].
    apply preserves_forEach; [|done]. intros [|n]; [apply preserves_skip|apply preserves_isolated, preserves_scrollToNextReel].
  - apply V13_handleDomChanges_preserves; [|done]. intros v. apply V13_add_keepsSession.
  - rewrite Hp. unfold V13.onresult. destruct (_ ≫= _) as [best|]; [|done].
    apply preserves_seq; [apply preserves_emit| |done].
    destruct (jsstring_eqb _ _); [|apply preserves_skip].
    apply preserves_seq; [apply preserves_emit|apply preserves_scrollToNextReel].
  - by rewrite Hp.
  - rewrite Hp. unfold V13.onerror. by destruct (String.eqb _ _).
Qed.

Lemma handle_restarts p r ev :
  session p = Some r →
  restarts (trace (V13.handle ev p)) = if isSpeechEnd ev then 1%nat else 0%nat.
Proof.
  intros Hs. destruct ev as [video|mutationsList|results| |error]; simpl.
  - apply V13_dispatchEnded_quiet.
  - apply V13_handleDomChanges_quiet.
  - rewrite Hs. apply V13_onresult_quiet.
  - by rewrite Hs.
  - rewrite Hs. apply V13_onerror_quiet.
Qed.

Lemma run_restarts evs : ∀ p r,
  session p = Some r → restarts (snd (V13.run evs p)) = ends evs.
Proof.
  induction evs as [|ev evs IH]; intros p r Hs; [done|].
  simpl. rewrite restarts_app, (handle_restarts p r ev Hs).
  rewrite (IH _ r) by (by apply V13_handle_keepsSession).
  unfold ends. simpl. by destruct (isSpeechEnd ev).
Qed.

(** C8. Once a session exists, a turn of the event loop asks for a
    recognition start if and only if the event is the end of the session; the
    end callback logs one line and calls [start()] whatever the host will
    answer; the error callback only writes one error line, the line for
    not-allowed being different from the line for any other error, and leaves
    the page as it is; over any sequence of events there are exactly as many
    start requests as end events. *)
Theorem C8_restart_only_on_end (p : page) (r : recognition) :
  session p = Some r →
  (∀ ev, In RecognitionStart (trace (V13.handle ev p)) ↔ ev = V13.SpeechEnd) ∧
  trace (V13.handle V13.SpeechEnd p) =
    [ Console LogL "Speech recognition service ended. Restarting..." []; RecognitionStart ] ∧
  V13.handle (V13.SpeechError "not-allowed") p =
    (p, [ Console ErrorL "Microphone access denied. Voice commands will not work." [] ], Normal) ∧
  (∀ error, error ≠ "not-allowed" →
     V13.handle (V13.SpeechError error) p =
       (p, [ Console ErrorL "Speech recognition error:" [VErr error] ], Normal) ∧
     trace (V13.handle (V13.SpeechError error) p) ≠
       trace (V13.handle (V13.SpeechError "not-allowed") p)) ∧
  (∀ evs, restarts (snd (V13.run evs p)) = ends evs).
Proof.
  intros Hs. split; [|split; [|split; [|split]]].
  - intros ev. rewrite restarts_In, (handle_restarts p r ev Hs).
    destruct ev; simpl; split; try done; lia.
  - simpl. by rewrite Hs.
  - simpl. by rewrite Hs.
  - intros error Hne. simpl. rewrite Hs. unfold V13.onerror.
    apply String.eqb_neq in Hne. by rewrite Hne.
  - intros evs. by apply run_restarts with r.
Qed.

Lemma C8_restart_only_on_end_witness :
  trace (V13.handle V13.SpeechEnd listeningPage) =
    [ Console LogL "Speech recognition service ended. Restarting..." []; RecognitionStart ] ∧
  restarts (snd (V13.run [V13.SpeechError "not-allowed"; V13.SpeechEnd; V13.VideoEnded 11;
                          V13.SpeechError "network"; V13.SpeechEnd] listeningPage)) = 2%nat.
Proof.
  destruct (C8_restart_only_on_end listeningPage
              {| continuous := true; lang := "en-US"; interimResults := false;
                 maxAlternatives := 1 |}) as (_ & Hend & _ & _ & Hrun).
  - vm_compute. reflexivity.
  - split; [exact Hend|]. apply Hrun.
Defined.

(** ** Start-up without speech recognition *)

Lemma seq_normal a b p :
  outcome (a p) = Normal →
  (a ;; b) p =
    (final (b (final (a p))), trace (a p) ++ trace (b (final (a p))), outcome (b (final (a p)))).
Proof.
  unfold seq, outcome, final, trace. destruct (a p) as [[p1 t1] c1]. simpl.
  intros ->. by destruct (b p1) as [[p2 t2] c2].
Qed.

Lemma total_skip : total skip.
Proof. by intros p. Qed.

Lemma total_emit x : total (emit x).
Proof. by intros p. Qed.

Lemma total_seq a b : total a → total b → total (a ;; b).
Proof. intros Ha Hb p. rewrite seq_normal by apply Ha. apply Hb. Qed.

Lemma total_forEach {A} (f : A → script) l : (∀ x, total (f x)) → total (forEach f l).
Proof.
  intros Hf. induction l as [|x l IH]; simpl.
  - apply total_skip.
  - by apply total_seq.
Qed.

Lemma V13_add_total v : total (V13.addListenerToVideo v).
Proof. intros p. unfold V13.addListenerToVideo. by repeat wiring_step. Qed.

Lemma V13_add_sameHost p0 v : preserves (sameHost p0) (V13.addListenerToVideo v).
Proof. intros p Hp. unfold V13.addListenerToVideo. by repeat wiring_step. Qed.

Lemma V13_add_is_Some v w :
  preserves (fun q => is_Some (nodes q !! v)) (V13.addListenerToVideo w).
Proof.
  intros p Hp. unfold V13.addListenerToVideo. repeat wiring_step.
  simpl. rewrite lookup_insert. by case_decide.
Qed.

Lemma V13_add_arrowOnly v : preserves arrowOnly (V13.addListenerToVideo v).
Proof.
  intros p Hp. unfold V13.addListenerToVideo. repeat wiring_step.
  simpl. intros w ew. simpl. rewrite lookup_insert. case_decide; [|apply Hp].
  intros [= <-]. simpl. unfold addEventListener. case_bool_decide; [by apply (Hp v)|].
  apply Forall_app. split; [by apply (Hp v)|]. constructor; [by eexists|constructor].
Qed.

Lemma pristine_allConsistent p : pristine p → allConsistent p.
Proof. intros H v e Hv. destruct (H v e Hv) as [Hm Hl]. right. split; [by rewrite Hm|done]. Qed.

Lemma pristine_arrowOnly p : pristine p → arrowOnly p.
Proof. intros H v e Hv. destruct (H v e Hv) as [_ ->]. constructor. Qed.

Lemma V13_forEach_add_wires l : ∀ p v,
  allConsistent p → is_Some (nodes p !! v) → In v l →
  wiredOnceAt v (final (forEach V13.addListenerToVideo l p)).
Proof.
  induction l as [|x l IH]; intros p v Hall Hsome Hin; [destruct Hin|].
  simpl forEach. rewrite seq_normal by apply V13_add_total.
  change (final (?a, ?b, ?c)) with a.
  destruct Hin as [->|Hin].
  - apply preserves_forEach; [intros w; apply V13_add_wiredOnceAt|].
    destruct Hsome as [e He]. apply V13_add_wires with e; [done|by apply (Hall v)].
  - apply IH; [by apply V13_add_consistent|by apply V13_add_is_Some|done].
Qed.

Lemma wiringPhase_normal p : outcome (wiringPhase p) = Normal.
Proof.
  unfold wiringPhase. apply total_seq; [apply total_emit|].
  apply total_seq; [apply total_emit|].
  apply total_forEach, V13_add_total.
Qed.

Lemma wiringPhase_final p :
  final (wiringPhase p) =
  final (forEach V13.addListenerToVideo
           (map fst (querySelectorAll (matchesTag REEL_VIDEO_SELECTOR) p)) p).
Proof. unfold wiringPhase. by rewrite !(seq_normal (emit _)). Qed.

Lemma wiringPhase_observes p : In (Observe true true) (trace (wiringPhase p)).
Proof. unfold wiringPhase. rewrite !(seq_normal (emit _)) by done. right. by left. Qed.

Lemma wiringPhase_sameHost p : sameHost p (final (wiringPhase p)).
Proof.
  rewrite wiringPhase_final. apply preserves_forEach; [|done].
  intros v. apply V13_add_sameHost.
Qed.

Lemma wiringPhase_quiet p : restarts (trace (wiringPhase p)) = 0%nat.
Proof.
  unfold wiringPhase. apply quiet_seq; [by apply quiet_emit|].
  apply quiet_seq; [by apply quiet_emit|].
  apply quiet_forEach, V13_add_quiet.
Qed.

Lemma main_after_wiring p :
  V13.main p =
    (final (V13.setupVoiceCommands (final (wiringPhase p))),
     trace (wiringPhase p) ++ trace (V13.setupVoiceCommands (final (wiringPhase p))),
     outcome (V13.setupVoiceCommands (final (wiringPhase p)))).
Proof.
  unfold V13.main, wiringPhase.
  rewrite !(seq_normal (emit _)) by done.
  rewrite seq_normal by apply total_forEach, V13_add_total.
  cbn [final trace emit fst snd]. by rewrite !app_assoc.
Qed.

Lemma setup_unsupported p :
  hasSpeechRecognition p = false → hasWebkitSpeechRecognition p = false →
  V13.setupVoiceCommands p = (p, [unsupportedNotice], Normal).
Proof. intros H1 H2. unfold V13.setupVoiceCommands. by rewrite H1, H2. Qed.

Lemma setup_start_failure p e :
  hasSpeechRecognition p || hasWebkitSpeechRecognition p = true → startThrows p = Some e →
  outcome (V13.setupVoiceCommands p) = Normal ∧
  trace (V13.setupVoiceCommands p) =
    [ RecognitionStart; Console ErrorL "Could not start voice recognition:" [VErr e] ].
Proof.
  intros Hcap Hthrow. unfold V13.setupVoiceCommands. rewrite Hcap.
  unfold tryCatch, seq, V13.start. simpl. by rewrite Hthrow.
Qed.

Lemma setup_total : total V13.setupVoiceCommands.
Proof.
  intros p. unfold V13.setupVoiceCommands. destruct (_ || _); [|done].
  unfold tryCatch, seq, V13.start. simpl. by destruct (startThrows p).
Qed.

Lemma wired_video_responds p v :
  pristine p → (∃ e, inDocument p v e ∧ isVideo e) →
  wiredOnceAt v (final (wiringPhase p)) ∧
  trace (V13.dispatchEnded v (final (wiringPhase p))) =
    trace (V13.scrollToNextReel (final (wiringPhase p))).
Proof.
  intros Hp (e & Hdoc & Htag).
  assert (Hw : wiredOnceAt v (final (wiringPhase p))).
  { rewrite wiringPhase_final. apply V13_forEach_add_wires.
    - by apply pristine_allConsistent.
    - destruct Hdoc as [_ Hv]. by exists e.
    - apply (in_map fst _ (v, e)), querySelectorAll_spec.
      split; [done|]. by apply matchesTag_video. }
  split; [done|].
  assert (Ha : arrowOnly (final (wiringPhase p))).
  { rewrite wiringPhase_final. apply preserves_forEach; [|by apply pristine_arrowOnly].
    intros w. apply V13_add_arrowOnly. }
  destruct Hw as (e' & Hv' & _ & Hlen).
  specialize (Ha v e' Hv').
  destruct (endedListeners e') as [|l [|l' ls]] eqn:El; try discriminate Hlen.
  apply Forall_cons in Ha as [[n ->] _].
  by apply V13_dispatch_single with e' n.
Qed.

(** C9. When the window offers neither [SpeechRecognition] nor
    [webkitSpeechRecognition], [setupVoiceCommands] returns after one error
    line and leaves the page as it is, with no session; the script as a whole
    is then the observer registration and the initial scan followed by that
    one line, every video of the document is wired once and its ended event
    runs [scrollToNextReel].  When the capability is there and [start()]
    throws, the exception is caught: one error line is written and both
    [setupVoiceCommands] and the script complete normally. *)
Theorem C9_voice_setup_degrades_gracefully (p : page) :
  (hasSpeechRecognition p = false → hasWebkitSpeechRecognition p = false →
     V13.setupVoiceCommands p = (p, [unsupportedNotice], Normal) ∧
     V13.main p = (final (wiringPhase p), trace (wiringPhase p) ++ [unsupportedNotice], Normal) ∧
     session (final (V13.main p)) = session p ∧
     In (Observe true true) (trace (V13.main p)) ∧
     restarts (trace (V13.main p)) = 0%nat ∧
     (pristine p → ∀ v e, inDocument p v e → isVideo e →
        wiredOnceAt v (final (V13.main p)) ∧
        trace (V13.dispatchEnded v (final (V13.main p))) =
          trace (V13.scrollToNextReel (final (V13.main p))))) ∧
  (∀ e, hasSpeechRecognition p || hasWebkitSpeechRecognition p = true →
     startThrows p = Some e →
     outcome (V13.setupVoiceCommands p) = Normal ∧
     trace (V13.setupVoiceCommands p) =
       [ RecognitionStart; Console ErrorL "Could not start voice recognition:" [VErr e] ] ∧
     outcome (V13.main p) = Normal).
Proof.
  split.
  - intros H1 H2. split; [by apply setup_unsupported|].
    destruct (wiringPhase_sameHost p) as (S1 & S2 & _ & S4).
    assert (Hmain : V13.main p =
      (final (wiringPhase p), trace (wiringPhase p) ++ [unsupportedNotice], Normal)).
    { rewrite main_after_wiring, setup_unsupported by congruence. done. }
    split; [done|]. rewrite Hmain. cbn [final trace fst snd].
    split; [done|]. split; [apply in_or_app; left; apply wiringPhase_observes|].
    split.
    + by rewrite restarts_app, wiringPhase_quiet.
    + intros Hp v e Hdoc Htag. apply wired_video_responds; [done|]. by exists e.
  - intros e Hcap Hthrow.
    destruct (setup_start_failure p e Hcap Hthrow) as [Ho Ht].
    split; [done|]. split; [done|].
    rewrite main_after_wiring. apply setup_total.
Qed.

Lemma pristine_mkPage l innerH :
  Forall (fun ie => autoScrollListenerAttached (snd ie) = None ∧ endedListeners (snd ie) = []) l →
  pristine (mkPage l innerH).
Proof.
  intros HF v e Hv. simpl in Hv. apply elem_of_list_to_map_2 in Hv.
  rewrite Forall_forall in HF. apply (HF (v, e) Hv).
Qed.

Lemma pristine_withHost sr wk st p : pristine p → pristine (withHost sr wk st p).
Proof. intros H v e Hv. by apply (H v e). Qed.

Lemma C9_voice_setup_degrades_gracefully_witness :
  V13.setupVoiceCommands silentPage = (silentPage, [unsupportedNotice], Normal) ∧
  trace (V13.dispatchEnded 11 (final (V13.main silentPage))) =
    trace (V13.scrollToNextReel (final (V13.main silentPage))) ∧
  outcome (V13.main failingPage) = Normal.
Proof.
  destruct (C9_voice_setup_degrades_gracefully silentPage) as [Hsilent _].
  destruct (Hsilent eq_refl eq_refl) as (Hsetup & _ & _ & _ & _ & Hwired).
  destruct (C9_voice_setup_degrades_gracefully failingPage) as [_ Hfailing].
  destruct (Hfailing "InvalidStateError" eq_refl eq_refl) as (_ & _ & Hmain).
  split; [exact Hsetup|]. split; [|exact Hmain].
  assert (Hp : pristine silentPage).
  { apply pristine_withHost, pristine_mkPage. repeat constructor. }
  apply (Hwired Hp 11%nat feedVideo).
  - apply elements_spec. vm_compute. tauto.
  - reflexivity.
Defined.

Example script_without_speech_support :
  trace (V13.main silentPage) =
    [ Console LogL "Instagram Auto-Reel Scroller v1.3: Content script loaded." [];
      Observe true true;
      Console LogL "Attaching 'ended' listener to new video." [VElem 11];
      unsupportedNotice ].
Proof. vm_compute. reflexivity. Qed.

Example script_with_failing_start :
  trace (V13.main failingPage) =
    [ Console LogL "Instagram Auto-Reel Scroller v1.3: Content script loaded." [];
      Observe true true;
      Console LogL "Attaching 'ended' listener to new video." [VElem 11];
      RecognitionStart;
      Console ErrorL "Could not start voice recognition:" [VErr "InvalidStateError"] ].
Proof. vm_compute. reflexivity. Qed.

(** * Further properties of the code *)

(** ** What a run of [scrollToNextReel] can request *)

Lemma walkUp_sound p budget : ∀ start c e,
  walkUp p budget start = Some (c, e) →
  ∃ k, (k < budget)%nat ∧ nthAncestor p k start = Some c ∧ nodes p !! c = Some e ∧
    overflowing e ∧ noneOverflowing p k start.
Proof.
  induction budget as [|budget IH]; intros start c e Hw; [done|].
  simpl in Hw. destruct start as [i|]; [|done].
  destruct (nodes p !! i) as [ei|] eqn:Ei; [|done].
  destruct (scrollHeight ei >? clientHeight ei + 50) eqn:G.
  - injection Hw as <- <-. exists 0%nat. split; [lia|]. split; [done|]. split; [done|].
    split; [by apply overflowing_gtb|]. intros j c' e' Hj. lia.
  - destruct (IH _ _ _ Hw) as (k & Hk & Hanc & Hc & Hov & Hnone).
    exists (S k). split; [lia|]. split; [by simpl; rewrite Ei|]. split; [done|]. split; [done|].
    intros j c' e' Hj Hanc' Hc'. destruct j as [|j]; simpl in Hanc'.
    + injection Hanc' as <-. rewrite Ei in Hc'. injection Hc' as <-.
      intros Hov'. apply overflowing_gtb in Hov'. congruence.
    + rewrite Ei in Hanc'. apply (Hnone j c' e'); [lia|done|done].
Qed.

Lemma walkUp_nearestOverflowing p start c container :
  walkUp p 15 start = Some (c, container) ↔ nearestOverflowing p start c container.
Proof.
  split.
  - apply walkUp_sound.
  - intros (k & Hk & Hanc & Hc & Hov & Hnone). by apply walkUp_nearest with k.
Qed.

(** X1. Whatever the page, a container scroll requested by [scrollToNextReel]
    is addressed to the nearest ancestor of the current video that overflows
    by more than 50 pixels, found at most fifteen levels up; its amount is
    that ancestor's [clientHeight], it is vertical and smooth, and it is only
    made when no element is labelled Next.  The current video is the one the
    scan selects in v1.3 and the target of the event in v1.2. *)
Theorem X1_container_scroll_only_to_nearest_overflowing_ancestor
    (p : page) (c : nat) (top left : Z) (b : string) :
  (In (ElementScrollBy c top left b) (trace (V13.scrollToNextReel p)) →
     noNextButton p ∧
     ∃ i video container, V13.currentVideo p = Some (i, video) ∧
       nearestOverflowing p (parentElement video) c container ∧
       top = clientHeight container ∧ left = 0 ∧ b = "smooth") ∧
  (∀ i video, nodes p !! i = Some video →
     In (ElementScrollBy c top left b) (trace (V12.scrollToNextReel {| target := Some i |} p)) →
     noNextButton p ∧
     ∃ container, nearestOverflowing p (parentElement video) c container ∧
       top = clientHeight container ∧ left = 0 ∧ b = "smooth").
Proof.
  split.
  - rewrite V13_scrollToNextReel_cases.
    destruct (querySelector matchesNextButton p) as [[nb eb]|] eqn:Q.
    { destruct (isHTMLElement eb).
      - intros [H|[H|[H|[]]]]; discriminate H.
      - intros [H|[H|[]]]; discriminate H. }
    cbn [trace fst snd]. destruct (V13.currentVideo p) as [[i cur]|].
    + destruct (walkUp p 15 (parentElement cur)) as [[c' container]|] eqn:W.
      * intros [H|[H|[H|[H|[]]]]]; try discriminate H.
        injection H as -> <- <- <-. split; [exact (no_next_button_inv p Q)|].
        exists i, cur, container. split; [done|]. split; [|done].
        by apply walkUp_nearestOverflowing.
      * intros [H|[H|[H|[]]]]; discriminate H.
    + intros [H|[H|[H|[H|[H|[]]]]]]; discriminate H.
  - intros i video Hv. rewrite V12_scrollToNextReel_cases. unfold V12.currentVideo.
    cbv [target]. rewrite Hv.
    change (Some video ≫= parentElement) with (parentElement video).
    destruct (querySelector matchesNextButton p) as [[nb eb]|] eqn:Q.
    { destruct (isHTMLElement eb).
      - intros [H|[H|[H|[]]]]; discriminate H.
      - intros [H|[H|[]]]; discriminate H. }
    cbn [trace fst snd]. destruct (walkUp p 15 (parentElement video)) as [[c' container]|] eqn:W.
    + intros [H|[H|[H|[H|[]]]]]; try discriminate H.
      injection H as -> <- <- <-. split; [exact (no_next_button_inv p Q)|].
      exists container. split; [|done]. by apply walkUp_nearestOverflowing.
    + intros [H|[H|[H|[H|[]]]]]; discriminate H.
Qed.

Lemma X1_container_scroll_only_to_nearest_overflowing_ancestor_witness :
  (∃ container, nearestOverflowing feedPage (parentElement feedVideo) 10 container ∧
     800 = clientHeight container) ∧
  (∃ container, nearestOverflowing wiredTwoFeeds12 (parentElement leavingVideo) 10 container ∧
     700 = clientHeight container).
Proof.
  split.
  - destruct (proj1 (X1_container_scroll_only_to_nearest_overflowing_ancestor feedPage 10 800 0 "smooth"))
      as (_ & i & video & container & Hcur & Hnear & Htop & _).
    + vm_compute. tauto.
    + vm_compute in Hcur. injection Hcur as <- <-. by exists container.
  - destruct (proj2 (X1_container_scroll_only_to_nearest_overflowing_ancestor wiredTwoFeeds12 10 700 0 "smooth")
                11%nat (wire NamedScrollToNextReel leavingVideo) eq_refl)
      as (_ & container & Hnear & Htop & _).
    + vm_compute. tauto.
    + by exists container.
Defined.

(** X2. A run of [scrollToNextReel] makes at most one request that moves the
    feed (click, container scroll or window scroll).  It makes none when the
    first element labelled Next is not an HTML element, the call of its
    [click] then throwing; these are the only runs that end with an
    exception.  Otherwise version 1.3 makes none exactly when no element is
    labelled Next and the scan selects a video none of whose fifteen nearest
    ancestors overflows, and version 1.2 exactly when no element is labelled
    Next and the event has no target. *)
Theorem X2_at_most_one_action (p : page) (ev : event) :
  (length (actions (trace (V13.scrollToNextReel p))) <= 1)%nat ∧
  (actions (trace (V13.scrollToNextReel p)) = [] ↔
     clickThrows p ∨
     (noNextButton p ∧
      ∃ i video, V13.currentVideo p = Some (i, video) ∧
        noneOverflowing p 15 (parentElement video))) ∧
  (length (actions (trace (V12.scrollToNextReel ev p))) <= 1)%nat ∧
  (actions (trace (V12.scrollToNextReel ev p)) = [] ↔
     clickThrows p ∨ (noNextButton p ∧ target ev = None)) ∧
  (outcome (V13.scrollToNextReel p) = Throw "TypeError" ↔ clickThrows p) ∧
  (outcome (V12.scrollToNextReel ev p) = Throw "TypeError" ↔ clickThrows p) ∧
  (outcome (V13.scrollToNextReel p) = Normal ↔ ¬ clickThrows p) ∧
  (outcome (V12.scrollToNextReel ev p) = Normal ↔ ¬ clickThrows p).
Proof.
  unfold clickThrows. rewrite V13_scrollToNextReel_cases, V12_scrollToNextReel_cases.
  unfold V12.currentVideo.
  destruct (querySelector matchesNextButton p) as [[nb eb]|] eqn:Q.
  - assert (Hno : ¬ noNextButton p).
    { intros Hno. by rewrite (no_next_button p Hno) in Q. }
    destruct (isHTMLElement eb) eqn:Hhtml.
    + assert (Hc : ¬ ∃ b e, Some (nb, eb) = Some (b, e) ∧ isHTMLElement e = false).
      { intros (b & e & [= <- <-] & He). congruence. }
      split; [simpl; lia|]. split; [split; [done|]; intros [H|[H _]]; tauto|].
      split; [simpl; lia|]. split; [split; [done|]; intros [H|[H _]]; tauto|].
      split; [split; [done|tauto]|]. split; [split; [done|tauto]|]. done.
    + assert (Hc : ∃ b e, Some (nb, eb) = Some (b, e) ∧ isHTMLElement e = false)
        by (by exists nb, eb).
      split; [simpl; lia|]. split; [split; [by left|done]|].
      split; [simpl; lia|]. split; [split; [by left|done]|].
      split; [done|]. split; [done|]. split; (split; [done|tauto]).
  - assert (Hno : noNextButton p) by exact (no_next_button_inv p Q).
    assert (Hc : ¬ ∃ b e, @None (nat * element) = Some (b, e) ∧ isHTMLElement e = false).
    { by intros (b & e & H & _). }
    cbn [trace outcome fst snd].
    split; [|split; [|split; [|split; [|split; [|split; [|split]]]]]].
    + destruct (V13.currentVideo p) as [[i cur]|]; [|simpl; lia].
      destruct (walkUp p 15 (parentElement cur)) as [[c container]|]; simpl; lia.
    + destruct (V13.currentVideo p) as [[i cur]|].
      * destruct (walkUp p 15 (parentElement cur)) as [[c container]|] eqn:W.
        -- split; [done|]. intros [H|(_ & i' & video & [= <- <-] & Hnone)]; [tauto|].
           by rewrite (walkUp_none p 15 _ Hnone) in W.
        -- split; [|done]. intros _. right. split; [done|].
           exists i, cur. split; [done|]. by apply walkUp_none_inv.
      * split; [done|]. intros [H|(_ & i & video & H & _)]; [tauto|done].
    + destruct (target ev) as [i|]; [|simpl; lia].
      destruct (walkUp p 15 (nodes p !! i ≫= parentElement)) as [[c container]|]; simpl; lia.
    + destruct (target ev) as [i|].
      * destruct (walkUp p 15 (nodes p !! i ≫= parentElement)) as [[c container]|];
          (split; [done|]; intros [H|[_ H]]; [tauto|done]).
      * split; [|done]. intros _. by right.
    + split; [done|tauto].
    + split; [done|tauto].
    + done.
    + done.
Qed.

Example click_throws_on_the_icon_page :
  clickThrows iconPage ∧ ¬ clickThrows buttonPage ∧ ¬ clickThrows feedPage.
Proof.
  split; [|split].
  - exists 13%nat, nextIcon. split; [vm_compute; reflexivity|reflexivity].
  - intros (b & e & Hq & He). vm_compute in Hq. injection Hq as <- <-. discriminate He.
  - intros (b & e & Hq & He). vm_compute in Hq. discriminate Hq.
Qed.

(** ** The layout of the page *)

Lemma elements_layout p : elements (layout p) = map bareEntry (elements p).
Proof.
  unfold elements. change (order (layout p)) with (order p).
  change (nodes (layout p)) with (bare <$> nodes p).
  induction (order p) as [|i l IH]; [done|].
  change (omap ?f (i :: l)) with
    (match f i with Some y => y :: omap f l | None => omap f l end).
  rewrite IH, lookup_fmap. by destruct (nodes p !! i).
Qed.

Lemma find_map_bare (sel : element → bool) l :
  (∀ e, sel (bare e) = sel e) →
  find (fun ie => sel (snd ie)) (map bareEntry l) = bareEntry <$> find (fun ie => sel (snd ie)) l.
Proof.
  intros Hsel. induction l as [|[i e] l IH]; [done|].
  simpl. rewrite Hsel. by destruct (sel e).
Qed.

Lemma filter_map_bare (sel : nat * element → bool) l :
  (∀ ie, sel (bareEntry ie) = sel ie) →
  List.filter sel (map bareEntry l) = map bareEntry (List.filter sel l).
Proof.
  intros Hsel. induction l as [|ie l IH]; [done|].
  simpl. rewrite Hsel, IH. by destruct (sel ie).
Qed.

Lemma querySelector_layout sel p :
  (∀ e, sel (bare e) = sel e) →
  querySelector sel (layout p) = bareEntry <$> querySelector sel p.
Proof. intros Hsel. unfold querySelector. by rewrite elements_layout, find_map_bare. Qed.

Lemma walkUp_layout p budget : ∀ start,
  walkUp (layout p) budget start = bareEntry <$> walkUp p budget start.
Proof.
  induction budget as [|budget IH]; intros start; [done|].
  simpl. destruct start as [i|]; [|done].
  rewrite lookup_fmap. destruct (nodes p !! i) as [e|]; [|done]. simpl.
  destruct (scrollHeight e >? clientHeight e + 50); [done|]. apply IH.
Qed.

Lemma isBelow_layout p fuel root : ∀ start,
  isBelow (layout p) fuel root start = isBelow p fuel root start.
Proof.
  induction fuel as [|fuel IH]; intros start; [done|].
  simpl. destruct start as [i|]; [|done].
  rewrite lookup_fmap. destruct (nodes p !! i) as [e|]; [|done]. simpl. by rewrite IH.
Qed.

Lemma querySelectorAllIn_layout sel root p :
  (∀ e, sel (bare e) = sel e) →
  querySelectorAllIn sel root (layout p) = map bareEntry (querySelectorAllIn sel root p).
Proof.
  intros Hsel. unfold querySelectorAllIn. rewrite elements_layout.
  change (order (layout p)) with (order p).
  rewrite (List.filter_ext _
    (fun ie => sel (snd ie) && isBelow p (length (order p)) root (parentElement (snd ie))))
    by (intros ie; by rewrite isBelow_layout).
  apply filter_map_bare. intros [i e]. simpl. by rewrite Hsel.
Qed.

Lemma V12_scrollToNextReel_layout ev p :
  trace (V12.scrollToNextReel ev (layout p)) = trace (V12.scrollToNextReel ev p).
Proof.
  rewrite !V12_scrollToNextReel_cases.
  rewrite querySelector_layout by done.
  destruct (querySelector matchesNextButton p) as [[nb eb]|];
    [by cbn; destruct (isHTMLElement eb)|].
  cbn [fmap option_fmap option_map trace fst snd]. do 2 f_equal.
  destruct (V12.currentVideo ev) as [i|]; [|done].
  rewrite walkUp_layout. change (nodes (layout p)) with (bare <$> nodes p).
  rewrite lookup_fmap.
  replace ((bare <$> (nodes p !! i)) ≫= parentElement) with ((nodes p !! i) ≫= parentElement)
    by (by destruct (nodes p !! i)).
  by destruct (walkUp p 15 (nodes p !! i ≫= parentElement)) as [[c container]|].
Qed.

Lemma sameLayout_store v e l fresh p0 p :
  sameLayout p0 p → nodes p !! v = Some e →
  sameLayout p0 (storeElement v (wire l e) fresh p).
Proof.
  unfold sameLayout. intros <- Hv. unfold layout. simpl. f_equal.
  rewrite fmap_insert. apply insert_id. by rewrite lookup_fmap, Hv.
Qed.

Lemma V13_add_sameLayout p0 v : preserves (sameLayout p0) (V13.addListenerToVideo v).
Proof.
  intros p Hp. unfold V13.addListenerToVideo. repeat wiring_step.
  simpl. by apply sameLayout_store.
Qed.

Lemma V12_add_sameLayout p0 v : preserves (sameLayout p0) (V12.addListenerToVideo v).
Proof.
  intros p Hp. unfold V12.addListenerToVideo. repeat wiring_step.
  simpl. by apply sameLayout_store.
Qed.

(** ** Mutation batches *)

Lemma forEach_establishes {A} (P Q : page → Prop) (f : A → script) (x : A) l :
  (∀ y, total (f y)) → (∀ y, preserves P (f y)) → (∀ y, preserves Q (f y)) →
  (∀ p, P p → Q (final (f x p))) →
  In x l → ∀ p, P p → Q (final (forEach f l p)).
Proof.
  intros Ht HP HQ Hx. induction l as [|y l IH]; intros Hin p Hp; [destruct Hin|].
  simpl forEach. rewrite seq_normal by apply Ht.
  change (final (?a, ?b, ?c)) with a.
  destruct Hin as [->|Hin].
  - apply preserves_forEach; [done|]. by apply Hx.
  - apply IH; [done|]. by apply HP.
Qed.

Lemma V12_add_total v : total (V12.addListenerToVideo v).
Proof. intros p. unfold V12.addListenerToVideo. by repeat wiring_step. Qed.

Lemma V13_handleAddedNode_total node : total (V13.handleAddedNode node).
Proof.
  intros p. destruct node as [i|]; [|done]. unfold V13.handleAddedNode.
  destruct (nodes p !! i) as [e|]; [|done].
  destruct (matchesTag _ e); [apply V13_add_total|].
  apply total_forEach, V13_add_total.
Qed.

Lemma V12_handleAddedNode_total node : total (V12.handleAddedNode node).
Proof.
  intros p. destruct node as [i|]; [|done]. unfold V12.handleAddedNode.
  destruct (nodes p !! i) as [e|]; [|done].
  destruct (matchesTag _ e); [apply V12_add_total|].
  apply total_forEach, V12_add_total.
Qed.

Lemma V13_handleMutation_total mutation : total (V13.handleMutation mutation).
Proof.
  unfold V13.handleMutation. destruct (_ && _); [|apply total_skip].
  apply total_forEach, V13_handleAddedNode_total.
Qed.

Lemma V12_handleMutation_total mutation : total (V12.handleMutation mutation).
Proof.
  unfold V12.handleMutation. destruct (_ && _); [|apply total_skip].
  apply total_forEach, V12_handleAddedNode_total.
Qed.

Lemma V13_handleAddedNode_preserves I node :
  (∀ v, preserves I (V13.addListenerToVideo v)) → preserves I (V13.handleAddedNode node).
Proof.
  intros Hadd p Hp. destruct node as [i|]; [|done]. unfold V13.handleAddedNode.
  destruct (nodes p !! i) as [e|]; [|done].
  destruct (matchesTag _ e); [by apply Hadd|]. by apply preserves_forEach.
Qed.

Lemma V12_handleAddedNode_preserves I node :
  (∀ v, preserves I (V12.addListenerToVideo v)) → preserves I (V12.handleAddedNode node).
Proof.
  intros Hadd p Hp. destruct node as [i|]; [|done]. unfold V12.handleAddedNode.
  destruct (nodes p !! i) as [e|]; [|done].
  destruct (matchesTag _ e); [by apply Hadd|]. by apply preserves_forEach.
Qed.

Lemma V13_handleMutation_preserves I mutation :
  (∀ v, preserves I (V13.addListenerToVideo v)) → preserves I (V13.handleMutation mutation).
Proof.
  intros Hadd. unfold V13.handleMutation. destruct (_ && _); [|apply preserves_skip].
  apply preserves_forEach. intros node. by apply V13_handleAddedNode_preserves.
Qed.

Lemma V12_handleMutation_preserves I mutation :
  (∀ v, preserves I (V12.addListenerToVideo v)) → preserves I (V12.handleMutation mutation).
Proof.
  intros Hadd. unfold V12.handleMutation. destruct (_ && _); [|apply preserves_skip].
  apply preserves_forEach. intros node. by apply V12_handleAddedNode_preserves.
Qed.

Lemma sameLayout_lookup p0 p v e :
  sameLayout p0 p → nodes p0 !! v = Some e →
  ∃ e', nodes p !! v = Some e' ∧ bare e' = bare e.
Proof.
  intros Hl Hv. apply (f_equal (fun q => nodes q !! v)) in Hl.
  change (nodes (layout p)) with (bare <$> nodes p) in Hl.
  change (nodes (layout p0)) with (bare <$> nodes p0) in Hl.
  rewrite !lookup_fmap, Hv in Hl. destruct (nodes p !! v) as [e'|]; [|done].
  exists e'. split; [done|]. cbn [fmap option_fmap option_map] in Hl. congruence.
Qed.

Lemma sameLayout_below p0 p sel root :
  (∀ e, sel (bare e) = sel e) → sameLayout p0 p →
  map fst (querySelectorAllIn sel root p) = map fst (querySelectorAllIn sel root p0).
Proof.
  intros Hsel Hl.
  assert (Hb : ∀ q, map fst (querySelectorAllIn sel root (layout q)) =
                    map fst (querySelectorAllIn sel root q)).
  { intros q. rewrite querySelectorAllIn_layout by done. by rewrite map_map. }
  by rewrite <- (Hb p), <- (Hb p0), Hl.
Qed.

Lemma isBelow_ancestor p root : ∀ k fuel start,
  nthAncestor p k start = Some root → (k < fuel)%nat → isBelow p fuel root start = true.
Proof.
  induction k as [|k IH]; intros fuel start Hanc Hk; (destruct fuel as [|fuel]; [lia|]).
  - simpl in Hanc. subst start. simpl. by rewrite Nat.eqb_refl.
  - simpl in Hanc. destruct start as [i|]; [|done]. simpl.
    destruct (nodes p !! i) as [e|]; [|done].
    rewrite (IH fuel _ Hanc) by lia. apply orb_true_r.
Qed.

(** The added node brings the video [v]: it is [v], or a non-video element
    of which [v], in the document, is a descendant. *)
Lemma V13_handleAddedNode_wires p0 p v e node :
  nodes p0 !! v = Some e → isVideo e →
  (node = ElementNode v ∨
   ∃ i container k, node = ElementNode i ∧ nodes p0 !! i = Some container ∧ ¬ isVideo container ∧
     inDocument p0 v e ∧ nthAncestor p0 k (parentElement e) = Some i ∧ (k < length (order p0))%nat) →
  allConsistent p ∧ sameLayout p0 p →
  wiredOnceAt v (final (V13.handleAddedNode node p)).
Proof.
  intros Hv Htag Hnode [Hall Hl].
  destruct (sameLayout_lookup p0 p v e Hl Hv) as (e' & Hv' & He').
  destruct Hnode as [->|(i & container & k & -> & Hi & Hnv & Hdoc & Hanc & Hk)].
  - unfold V13.handleAddedNode. rewrite Hv'.
    replace (matchesTag REEL_VIDEO_SELECTOR e') with true.
    + apply V13_add_wires with e'; [done|by apply (Hall v)].
    + symmetry. change (matchesTag REEL_VIDEO_SELECTOR (bare e') = true).
      rewrite He'. by apply matchesTag_video.
  - destruct (sameLayout_lookup p0 p i container Hl Hi) as (c' & Hi' & Hc').
    unfold V13.handleAddedNode. rewrite Hi'.
    replace (matchesTag REEL_VIDEO_SELECTOR c') with false.
    + apply V13_forEach_add_wires; [done|by exists e'|].
      rewrite (sameLayout_below p0 p) by done.
      apply (in_map fst _ (v, e)). unfold querySelectorAllIn.
      apply filter_In. split; [by apply elements_spec|]. simpl.
      rewrite (proj2 (matchesTag_video e) Htag). by apply isBelow_ancestor with k.
    + symmetry. change (matchesTag REEL_VIDEO_SELECTOR (bare c') = false).
      rewrite Hc'. apply not_true_iff_false. intros H. by apply matchesTag_video in H.
Qed.

Lemma V12_handleAddedNode_wires p0 p v e node :
  nodes p0 !! v = Some e → isVideo e →
  (node = ElementNode v ∨
   ∃ i container k, node = ElementNode i ∧ nodes p0 !! i = Some container ∧ ¬ isVideo container ∧
     inDocument p0 v e ∧ nthAncestor p0 k (parentElement e) = Some i ∧ (k < length (order p0))%nat) →
  allConsistent p ∧ sameLayout p0 p →
  wiredOnceAt v (final (V12.handleAddedNode node p)).
Proof.
  intros Hv Htag Hnode [Hall Hl].
  destruct (sameLayout_lookup p0 p v e Hl Hv) as (e' & Hv' & He').
  destruct Hnode as [->|(i & container & k & -> & Hi & Hnv & Hdoc & Hanc & Hk)].
  - unfold V12.handleAddedNode. rewrite Hv'.
    replace (matchesTag REEL_VIDEO_SELECTOR e') with true.
    + apply V12_add_wires with e'; [done|by apply (Hall v)].
    + symmetry. change (matchesTag REEL_VIDEO_SELECTOR (bare e') = true).
      rewrite He'. by apply matchesTag_video.
  - destruct (sameLayout_lookup p0 p i container Hl Hi) as (c' & Hi' & Hc').
    unfold V12.handleAddedNode. rewrite Hi'.
    replace (matchesTag REEL_VIDEO_SELECTOR c') with false.
    + apply (forEach_establishes
               (fun q => allConsistent q ∧ is_Some (nodes q !! v)) (wiredOnceAt v)
               V12.addListenerToVideo v).
      * apply V12_add_total.
      * intros w q [H1 H2]. split; [by apply V12_add_consistent|].
        revert H2. unfold V12.addListenerToVideo. repeat wiring_step.
        simpl. rewrite lookup_insert. by case_decide.
      * intros w. apply V12_add_wiredOnceAt.
      * intros q [H1 [eq Heq]]. apply V12_add_wires with eq; [done|by apply (H1 v)].
      * rewrite (sameLayout_below p0 p) by done.
        apply (in_map fst _ (v, e)). unfold querySelectorAllIn.
        apply filter_In. split; [by apply elements_spec|]. simpl.
        rewrite (proj2 (matchesTag_video e) Htag). by apply isBelow_ancestor with k.
      * split; [done|by exists e'].
    + symmetry. change (matchesTag REEL_VIDEO_SELECTOR (bare c') = false).
      rewrite Hc'. apply not_true_iff_false. intros H. by apply matchesTag_video in H.
Qed.

Lemma V13_add_consistent_sameLayout p0 v :
  preserves (fun q => allConsistent q ∧ sameLayout p0 q) (V13.addListenerToVideo v).
Proof. intros p [H1 H2]. split; [by apply V13_add_consistent|by apply V13_add_sameLayout]. Qed.

Lemma V12_add_consistent_sameLayout p0 v :
  preserves (fun q => allConsistent q ∧ sameLayout p0 q) (V12.addListenerToVideo v).
Proof. intros p [H1 H2]. split; [by apply V12_add_consistent|by apply V12_add_sameLayout]. Qed.

Lemma childList_guard m node :
  mtype m = "childList" → In node (addedNodes m) →
  String.eqb (mtype m) "childList" && (0 <? Z.of_nat (length (addedNodes m))) = true.
Proof.
  intros -> Hin. destruct (addedNodes m); [destruct Hin|]. done.
Qed.

(** X4. Mutation handling.  Let a batch of mutation records hold a childList
    record one of whose added nodes is a video, or is an element that is not
    a video and has a video of the document among its descendants.  After
    [handleDomChanges] has run on the batch, that video is marked and carries
    exactly one ended listener, in both revisions, whatever else the batch
    holds. *)
Theorem X4_inserted_video_is_wired (p : page) (mutationsList : list MutationRecord)
    (m : MutationRecord) (node : addedNode) (v : nat) (e : element) :
  allConsistent p → nodes p !! v = Some e → isVideo e →
  In m mutationsList → mtype m = "childList" → In node (addedNodes m) →
  brings p node v e →
  wiredOnceAt v (final (V13.handleDomChanges mutationsList p)) ∧
  wiredOnceAt v (final (V12.handleDomChanges mutationsList p)).
Proof.
  intros Hall Hv Htag Hm Htype Hnode Hbrings. split.
  - apply (forEach_establishes (fun q => allConsistent q ∧ sameLayout p q) (wiredOnceAt v)
             V13.handleMutation m); try done.
    + apply V13_handleMutation_total.
    + intros y. apply V13_handleMutation_preserves, V13_add_consistent_sameLayout.
    + intros y. apply V13_handleMutation_preserves. intros w. apply V13_add_wiredOnceAt.
    + intros q Hq. unfold V13.handleMutation. rewrite (childList_guard m node) by done.
      apply (forEach_establishes (fun q => allConsistent q ∧ sameLayout p q) (wiredOnceAt v)
               V13.handleAddedNode node); try done.
      * apply V13_handleAddedNode_total.
      * intros y. apply V13_handleAddedNode_preserves, V13_add_consistent_sameLayout.
      * intros y. apply V13_handleAddedNode_preserves. intros w. apply V13_add_wiredOnceAt.
      * intros q' Hq'. by apply V13_handleAddedNode_wires with p e.
  - apply (forEach_establishes (fun q => allConsistent q ∧ sameLayout p q) (wiredOnceAt v)
             V12.handleMutation m); try done.
    + apply V12_handleMutation_total.
    + intros y. apply V12_handleMutation_preserves, V12_add_consistent_sameLayout.
    + intros y. apply V12_handleMutation_preserves. intros w. apply V12_add_wiredOnceAt.
    + intros q Hq. unfold V12.handleMutation. rewrite (childList_guard m node) by done.
      apply (forEach_establishes (fun q => allConsistent q ∧ sameLayout p q) (wiredOnceAt v)
               V12.handleAddedNode node); try done.
      * apply V12_handleAddedNode_total.
      * intros y. apply V12_handleAddedNode_preserves, V12_add_consistent_sameLayout.
      * intros y. apply V12_handleAddedNode_preserves. intros w. apply V12_add_wiredOnceAt.
      * intros q' Hq'. by apply V12_handleAddedNode_wires with p e.
Qed.

Lemma X4_inserted_video_is_wired_witness :
  (wiredOnceAt 31 (final (V13.handleDomChanges grownBatch grownPage)) ∧
   wiredOnceAt 31 (final (V12.handleDomChanges grownBatch grownPage))) ∧
  (wiredOnceAt 32 (final (V13.handleDomChanges grownBatch grownPage)) ∧
   wiredOnceAt 32 (final (V12.handleDomChanges grownBatch grownPage))).
Proof.
  assert (Hall : allConsistent grownPage).
  { apply pristine_allConsistent, pristine_mkPage. repeat constructor. }
  split.
  - apply (X4_inserted_video_is_wired grownPage grownBatch
             {| mtype := "childList"; addedNodes := [OtherNode; ElementNode 30; ElementNode 32] |}
             (ElementNode 30) 31 addedVideo); try done.
    + right. by left.
    + right. by left.
    + right. exists 30%nat, (mkElement "div" None (Some 10%nat) 800 800 800 800), 0%nat.
      split; [done|]. split; [done|]. split; [discriminate|].
      split; [apply elements_spec; vm_compute; tauto|]. split; [done|]. simpl. lia.
  - apply (X4_inserted_video_is_wired grownPage grownBatch
             {| mtype := "childList"; addedNodes := [OtherNode; ElementNode 30; ElementNode 32] |}
             (ElementNode 32) 32 siblingVideo); try done.
    + right. by left.
    + do 2 right. by left.
    + by left.
Defined.

Lemma forEach_noop {A} (f : A → script) l p :
  (∀ x, In x l → f x p = (p, [], Normal)) → forEach f l p = (p, [], Normal).
Proof.
  induction l as [|x l IH]; intros H; [done|].
  simpl. unfold seq. rewrite (H x) by (by left). rewrite IH; [done|].
  intros y Hy. apply H. by right.
Qed.

Lemma listed_below_is_video p root v :
  In v (map fst (querySelectorAllIn (matchesTag REEL_VIDEO_SELECTOR) root p)) →
  ∃ e, nodes p !! v = Some e ∧ isVideo e.
Proof.
  intros ([v' e] & <- & Hin)%in_map_iff. unfold querySelectorAllIn in Hin.
  apply filter_In in Hin as [Hel Hsel]. apply elements_spec in Hel as [_ Hv].
  apply andb_true_iff in Hsel as [Htag _]. exists e. split; [done|].
  by apply matchesTag_video.
Qed.

(** X5. A batch does nothing at all, and logs nothing, when each of its
    records is not a childList record or adds only nodes that are not
    elements; and any batch does nothing at all when every video of the page
    is already marked.  This holds for both revisions. *)
Theorem X5_batches_without_new_video_do_nothing (p : page) (mutationsList : list MutationRecord) :
  (∀ v e, nodes p !! v = Some e → isVideo e → truthy (autoScrollListenerAttached e) = true) ∨
  Forall (fun m => mtype m ≠ "childList" ∨ Forall (fun n => n = OtherNode) (addedNodes m))
    mutationsList →
  V13.handleDomChanges mutationsList p = (p, [], Normal) ∧
  V12.handleDomChanges mutationsList p = (p, [], Normal).
Proof.
  intros [Hmarked|Hnone].
  - assert (Hm : ∀ v e, nodes p !! v = Some e → isVideo e → marked v p).
    { intros v e Hv Htag. exists e. split; [done|]. by apply (Hmarked v). }
    split.
    + apply forEach_noop. intros m _. unfold V13.handleMutation.
      destruct (_ && _); [|done]. apply forEach_noop. intros [i|] _; [|done].
      unfold V13.handleAddedNode. destruct (nodes p !! i) as [e|] eqn:E; [|done].
      destruct (matchesTag _ e) eqn:T.
      * apply V13_add_marked_noop, (Hm i e E). by apply matchesTag_video.
      * apply forEach_noop. intros v Hin. apply listed_below_is_video in Hin as (ev & Hv & Htag).
        by apply V13_add_marked_noop, (Hm v ev).
    + apply forEach_noop. intros m _. unfold V12.handleMutation.
      destruct (_ && _); [|done]. apply forEach_noop. intros [i|] _; [|done].
      unfold V12.handleAddedNode. destruct (nodes p !! i) as [e|] eqn:E; [|done].
      destruct (matchesTag _ e) eqn:T.
      * apply V12_add_marked_noop, (Hm i e E). by apply matchesTag_video.
      * apply forEach_noop. intros v Hin. apply listed_below_is_video in Hin as (ev & Hv & Htag).
        by apply V12_add_marked_noop, (Hm v ev).
  - rewrite Forall_forall in Hnone. split.
    + apply forEach_noop. intros m Hm%list_elem_of_In. unfold V13.handleMutation.
      destruct (Hnone m Hm) as [Ht|Hn].
      * apply String.eqb_neq in Ht. by rewrite Ht.
      * destruct (_ && _); [|done]. rewrite Forall_forall in Hn.
        apply forEach_noop. intros node Hin%list_elem_of_In. by rewrite (Hn node Hin).
    + apply forEach_noop. intros m Hm%list_elem_of_In. unfold V12.handleMutation.
      destruct (Hnone m Hm) as [Ht|Hn].
      * apply String.eqb_neq in Ht. by rewrite Ht.
      * destruct (_ && _); [|done]. rewrite Forall_forall in Hn.
        apply forEach_noop. intros node Hin%list_elem_of_In. by rewrite (Hn node Hin).
Qed.

Lemma X5_batches_without_new_video_do_nothing_witness :
  V13.handleDomChanges quietBatch grownPage = (grownPage, [], Normal) ∧
  V12.handleDomChanges quietBatch grownPage = (grownPage, [], Normal).
Proof.
  apply (X5_batches_without_new_video_do_nothing grownPage quietBatch).
  right.
  constructor; [left; discriminate|].
  constructor; [right; by constructor|].
  constructor; [right; constructor|].
  constructor.
Defined.

(** ** Invariants of the running script *)

Lemma V13_handle_preserves I ev :
  (∀ v, preserves I (V13.addListenerToVideo v)) → preserves I (V13.handle ev).
Proof.
  intros Hadd p Hp. destruct ev as [video|mutationsList|results| |error]; simpl.
  - unfold V13.dispatchEnded. destruct (nodes p !! video) as [e|]; [|done].
    apply preserves_forEach; [|done]. intros [|n]; [apply preserves_skip|apply preserves_isolated, preserves_scrollToNextReel].
  - by apply V13_handleDomChanges_preserves.
  - destruct (session p); [|done]. unfold V13.onresult. destruct (_ ≫= _) as [best|]; [|done].
    apply preserves_seq; [apply preserves_emit| |done].
    destruct (jsstring_eqb _ _); [|apply preserves_skip].
    apply preserves_seq; [apply preserves_emit|apply preserves_scrollToNextReel].
  - by destruct (session p).
  - destruct (session p); [|done]. unfold V13.onerror. by destruct (String.eqb _ _).
Qed.

Lemma V13_run_preserves I evs :
  (∀ v, preserves I (V13.addListenerToVideo v)) → ∀ p, I p → I (fst (V13.run evs p)).
Proof.
  intros Hadd. induction evs as [|ev evs IH]; intros p Hp; [done|].
  simpl. apply IH. by apply V13_handle_preserves.
Qed.

Lemma setup_nodes p : nodes (final (V13.setupVoiceCommands p)) = nodes p.
Proof.
  unfold V13.setupVoiceCommands. destruct (_ || _); [|done].
  unfold tryCatch, seq, V13.start. simpl. by destruct (startThrows p).
Qed.

Lemma main_nodes p : nodes (final (V13.main p)) = nodes (final (wiringPhase p)).
Proof. rewrite main_after_wiring. cbn [final fst]. apply setup_nodes. Qed.

Lemma allConsistent_nodes p q : nodes q = nodes p → allConsistent p → allConsistent q.
Proof. intros Hn H v e. rewrite Hn. apply H. Qed.

Lemma wiredOnceAt_nodes p q v : nodes q = nodes p → wiredOnceAt v p → wiredOnceAt v q.
Proof. intros Hn [e He]. exists e. by rewrite Hn. Qed.

(** X6. Start the v1.3 script on a page it has not touched and let any
    sequence of events follow.  At every moment each element's marker agrees
    with its listener list, so no element ever carries more than one ended
    listener, and every video that was in the document at load is marked and
    carries exactly one. *)
Theorem X6_one_listener_at_all_times (p : page) (evs : list V13.hostEvent) :
  pristine p →
  let q := fst (V13.run evs (final (V13.main p))) in
  allConsistent q ∧
  (∀ v e, nodes q !! v = Some e → (length (endedListeners e) <= 1)%nat) ∧
  (∀ v e, inDocument p v e → isVideo e → wiredOnceAt v q).
Proof.
  intros Hp. cbv zeta.
  assert (Hall : allConsistent (fst (V13.run evs (final (V13.main p))))).
  { apply V13_run_preserves; [apply V13_add_consistent|].
    apply (allConsistent_nodes (final (wiringPhase p))); [apply main_nodes|].
    rewrite wiringPhase_final. apply preserves_forEach; [apply V13_add_consistent|].
    by apply pristine_allConsistent. }
  split; [done|]. split.
  - intros v e Hv. destruct (Hall v e Hv) as [[_ Hl]|[_ Hl]]; rewrite Hl; simpl; lia.
  - intros v e Hdoc Htag. apply V13_run_preserves; [intros w; apply V13_add_wiredOnceAt|].
    apply (wiredOnceAt_nodes (final (wiringPhase p))); [apply main_nodes|].
    apply wired_video_responds; [done|]. by exists e.
Qed.

Lemma X6_one_listener_at_all_times_witness :
  allConsistent (fst (V13.run [V13.DomMutated grownBatch; V13.VideoEnded 11;
                              V13.DomMutated grownBatch; V13.SpeechEnd]
                     (final (V13.main grownPage)))) ∧
  wiredOnceAt 31 (fst (V13.run [V13.DomMutated grownBatch; V13.VideoEnded 11;
                               V13.DomMutated grownBatch; V13.SpeechEnd]
                      (final (V13.main grownPage)))).
Proof.
  destruct (X6_one_listener_at_all_times grownPage
              [V13.DomMutated grownBatch; V13.VideoEnded 11;
               V13.DomMutated grownBatch; V13.SpeechEnd]) as (Hall & _ & Hwired).
  - apply pristine_mkPage. repeat constructor.
  - split; [exact Hall|]. apply (Hwired 31%nat addedVideo).
    + apply elements_spec. vm_compute. tauto.
    + reflexivity.
Defined.

(** ** Start-up of version 1.2 *)

Lemma V12_add_namedOnly v : preserves namedOnly (V12.addListenerToVideo v).
Proof.
  intros p Hp. unfold V12.addListenerToVideo. repeat wiring_step.
  simpl. intros w ew. simpl. rewrite lookup_insert. case_decide; [|apply Hp].
  intros [= <-]. simpl. unfold addEventListener. case_bool_decide; [by apply (Hp v)|].
  apply Forall_app. split; [by apply (Hp v)|]. by repeat constructor.
Qed.

Lemma V12_add_is_Some v w :
  preserves (fun q => is_Some (nodes q !! v)) (V12.addListenerToVideo w).
Proof.
  intros p Hp. unfold V12.addListenerToVideo. repeat wiring_step.
  simpl. rewrite lookup_insert. by case_decide.
Qed.

Lemma V12_forEach_add_wires l p v :
  allConsistent p → is_Some (nodes p !! v) → In v l →
  wiredOnceAt v (final (forEach V12.addListenerToVideo l p)).
Proof.
  intros Hall Hsome Hin.
  apply (forEach_establishes (fun q => allConsistent q ∧ is_Some (nodes q !! v)) (wiredOnceAt v)
           V12.addListenerToVideo v); try done.
  - apply V12_add_total.
  - intros w q [H1 H2]. split; [by apply V12_add_consistent|by apply V12_add_is_Some].
  - intros w. apply V12_add_wiredOnceAt.
  - intros q [H1 [e He]]. apply V12_add_wires with e; [done|by apply (H1 v)].
Qed.

Lemma V12_main_with_container p j e :
  querySelector (matchesTag REELS_CONTAINER_SELECTOR) p = Some (j, e) →
  final (V12.main p) =
    final (forEach V12.addListenerToVideo
             (map fst (querySelectorAll (matchesTag REEL_VIDEO_SELECTOR) p)) p) ∧
  In (Observe true true) (trace (V12.main p)).
Proof.
  intros Hq. unfold V12.main. rewrite Hq. rewrite !(seq_normal (emit _)) by done.
  split; [done|]. do 2 right. by left.
Qed.

(** X9. Start-up of v1.2.  When the document has no main element the script
    registers the observer and nothing else: the page is left as it is, so
    the videos already present get no listener at load.  When a main element
    exists and the page is untouched, the observer is registered, the layout
    is unchanged, and every video of the document is marked and carries
    exactly one listener, whose run on the ended event is [scrollToNextReel]
    with that video as the target. *)
Theorem X9_v12_startup (p : page) :
  ((∀ j e, inDocument p j e → tagName e ≠ "main") →
     V12.main p =
       (p, [ Console LogL "Instagram Auto-Reel Scroller v1.2: Content script loaded." [];
             Console WarnL "Could not find main container on load. Will rely solely on MutationObserver." [];
             Observe true true ], Normal)) ∧
  ((∃ j e, inDocument p j e ∧ tagName e = "main") → pristine p →
     In (Observe true true) (trace (V12.main p)) ∧
     sameLayout p (final (V12.main p)) ∧
     ∀ v e, inDocument p v e → isVideo e →
       wiredOnceAt v (final (V12.main p)) ∧
       trace (V12.dispatchEnded v (final (V12.main p))) =
         trace (V12.scrollToNextReel {| target := Some v |} p)).
Proof.
  split.
  - intros Hno. unfold V12.main. rewrite querySelector_none; [done|].
    intros j e Hdoc. apply String.eqb_neq. by apply (Hno j).
  - intros (j & e & Hdoc & Htag) Hp.
    destruct (querySelector_some (matchesTag REELS_CONTAINER_SELECTOR) p) as (j' & e' & Hq & _).
    { exists j, e. split; [done|]. by apply String.eqb_eq. }
    destruct (V12_main_with_container p j' e' Hq) as [Hfinal Hobs].
    split; [done|]. rewrite Hfinal.
    assert (Hl : sameLayout p (final (forEach V12.addListenerToVideo
               (map fst (querySelectorAll (matchesTag REEL_VIDEO_SELECTOR) p)) p))).
    { apply preserves_forEach; [|done]. intros v. apply V12_add_sameLayout. }
    split; [done|]. intros v ev Hdocv Htagv.
    assert (Hw : wiredOnceAt v (final (forEach V12.addListenerToVideo
               (map fst (querySelectorAll (matchesTag REEL_VIDEO_SELECTOR) p)) p))).
    { apply V12_forEach_add_wires.
      - by apply pristine_allConsistent.
      - destruct Hdocv as [_ Hv]. by exists ev.
      - apply (in_map fst _ (v, ev)), querySelectorAll_spec.
        split; [done|]. by apply matchesTag_video. }
    split; [done|].
    assert (Hn : namedOnly (final (forEach V12.addListenerToVideo
               (map fst (querySelectorAll (matchesTag REEL_VIDEO_SELECTOR) p)) p))).
    { apply preserves_forEach; [intros w; apply V12_add_namedOnly|].
      intros w ew Hw'. destruct (Hp w ew Hw') as [_ ->]. constructor. }
    revert Hl Hw Hn. generalize (final (forEach V12.addListenerToVideo
               (map fst (querySelectorAll (matchesTag REEL_VIDEO_SELECTOR) p)) p)).
    intros q Hl (e'' & Hv'' & _ & Hlen) Hn.
    specialize (Hn v e'' Hv'').
    destruct (endedListeners e'') as [|l [|l' ls]] eqn:El; try discriminate Hlen.
    apply Forall_cons in Hn as [-> _].
    rewrite (V12_dispatch_single q v e'' Hv'' El).
    by rewrite <- V12_scrollToNextReel_layout, Hl, V12_scrollToNextReel_layout.
Qed.

Lemma X9_v12_startup_witness :
  final (V12.main boxedPage) = boxedPage ∧
  wiredOnceAt 11 (final (V12.main feedPage)).
Proof.
  split.
  - rewrite (proj1 (X9_v12_startup boxedPage)); [done|].
    intros j e Hdoc%elements_spec. vm_compute in Hdoc.
    destruct Hdoc as [[= <- <-]|[[= <- <-]|[]]]; discriminate.
  - destruct (proj2 (X9_v12_startup feedPage)) as (_ & _ & Hw).
    + exists 10%nat, (mkElement "main" None None 0 800 4000 800).
      split; [apply elements_spec; vm_compute; tauto|done].
    + apply pristine_mkPage. repeat constructor.
    + apply (Hw 11%nat feedVideo); [apply elements_spec; vm_compute; tauto|done].
Defined.

(** ** The recognition callbacks *)

(** X10. The result callback reads only the first alternative of the last
    result: two events that agree there cause the same run, whatever the
    earlier results and the other alternatives are.  An event with no result,
    or whose last result has no alternative, makes the callback throw a
    TypeError before any request is made. *)
Theorem X10_only_the_last_result_counts (p : page)
    (earlier earlier' : list (list V13.alternative)) (best : V13.alternative)
    (others others' : list V13.alternative) :
  V13.onresult (earlier ++ [best :: others]) p = V13.onresult (earlier' ++ [best :: others']) p ∧
  V13.onresult [] p = (p, [], Throw "TypeError") ∧
  V13.onresult (earlier ++ [[]]) p = (p, [], Throw "TypeError").
Proof.
  split; [|split].
  - unfold V13.onresult. by rewrite !last_result.
  - done.
  - unfold V13.onresult. rewrite length_app. simpl.
    replace (length earlier + 1 - 1)%nat with (length earlier) by lia.
    by rewrite list_lookup_middle.
Qed.

(** X11. When the window offers [SpeechRecognition] or its webkit-prefixed
    form, start-up creates the session with continuous listening, language
    en-US, no interim results and one alternative, asks for exactly one
    start and completes normally, also when that start throws; and from then
    on there are exactly as many start requests as end events, so the
    keep-alive is armed even after a failed first start. *)
Theorem X11_session_is_armed (p : page) (evs : list V13.hostEvent) :
  hasSpeechRecognition p || hasWebkitSpeechRecognition p = true →
  session (final (V13.main p)) = Some voiceSession ∧
  outcome (V13.main p) = Normal ∧
  restarts (trace (V13.main p)) = 1%nat ∧
  restarts (snd (V13.run evs (final (V13.main p)))) = ends evs.
Proof.
  intros Hcap.
  destruct (wiringPhase_sameHost p) as (S1 & S2 & S3 & S4).
  assert (Hcap' : hasSpeechRecognition (final (wiringPhase p)) ||
                  hasWebkitSpeechRecognition (final (wiringPhase p)) = true) by congruence.
  assert (Hs : session (final (V13.main p)) = Some voiceSession).
  { rewrite main_after_wiring. cbn [final fst].
    unfold V13.setupVoiceCommands. rewrite Hcap'.
    unfold tryCatch, seq, V13.start. simpl. by destruct (startThrows _). }
  split; [done|]. split; [|split].
  - rewrite main_after_wiring. apply setup_total.
  - rewrite main_after_wiring. cbn [trace fst snd]. rewrite restarts_app, wiringPhase_quiet.
    unfold V13.setupVoiceCommands. rewrite Hcap'.
    unfold tryCatch, seq, V13.start. simpl. by destruct (startThrows _).
  - by apply run_restarts with voiceSession.
Qed.

Lemma X11_session_is_armed_witness :
  session (final (V13.main failingPage)) = Some voiceSession ∧
  restarts (snd (V13.run [V13.SpeechEnd; V13.SpeechError "network"; V13.SpeechEnd]
                   (final (V13.main failingPage)))) = 2%nat.
Proof.
  destruct (X11_session_is_armed failingPage
              [V13.SpeechEnd; V13.SpeechError "network"; V13.SpeechEnd]) as (Hs & _ & _ & Hr).
  - reflexivity.
  - split; [exact Hs|exact Hr].
Defined.

(** ** The two revisions side by side *)

Lemma find_first {A} (f : A → bool) l x :
  find f l = Some x →
  ∃ before after, l = before ++ x :: after ∧ f x = true ∧ ∀ w, In w before → f w = false.
Proof.
  induction l as [|y l IH]; [done|]. simpl. destruct (f y) eqn:E.
  - intros [= <-]. exists [], l. repeat split; [done|]. intros w [].
  - intros Hf. destruct (IH Hf) as (before & after & -> & Hx & Hb).
    exists (y :: before), after. repeat split; [done|].
    intros w [<-|Hw]; [done|by apply Hb].
Qed.

(** X12. When some element is labelled Next, the element both revisions
    click is the first one in document order that carries such a label: no
    element before it in the document has a label containing Next. *)
Theorem X12_first_labelled_element_is_clicked (p : page) (ev : event) (b : nat) :
  In (Click b) (trace (V13.scrollToNextReel p)) ∨ In (Click b) (trace (V12.scrollToNextReel ev p)) →
  ∃ e before after, elements p = before ++ (b, e) :: after ∧ labelledNext e ∧
    (∀ w, In w before → ¬ labelledNext (snd w)) ∧
    actions (trace (V13.scrollToNextReel p)) = [Click b] ∧
    actions (trace (V12.scrollToNextReel ev p)) = [Click b].
Proof.
  intros Hin.
  assert (Hq : ∃ e, querySelector matchesNextButton p = Some (b, e) ∧ isHTMLElement e = true).
  { destruct Hin as [Hin|Hin]; revert Hin.
    - rewrite V13_scrollToNextReel_cases.
      destruct (querySelector matchesNextButton p) as [[nb eb]|].
      + destruct (isHTMLElement eb) eqn:Hhtml.
        * intros [H|[H|[H|[]]]]; try discriminate H. injection H as <-. by exists eb.
        * intros [H|[H|[]]]; discriminate H.
      + cbn [trace fst snd]. destruct (V13.currentVideo p) as [[i cur]|].
        * destruct (walkUp p 15 (parentElement cur)) as [[c container]|].
          -- intros [H|[H|[H|[H|[]]]]]; discriminate H.
          -- intros [H|[H|[H|[]]]]; discriminate H.
        * intros [H|[H|[H|[H|[H|[]]]]]]; discriminate H.
    - rewrite V12_scrollToNextReel_cases.
      destruct (querySelector matchesNextButton p) as [[nb eb]|].
      + destruct (isHTMLElement eb) eqn:Hhtml.
        * intros [H|[H|[H|[]]]]; try discriminate H. injection H as <-. by exists eb.
        * intros [H|[H|[]]]; discriminate H.
      + cbn [trace fst snd]. destruct (V12.currentVideo ev) as [i|].
        * destruct (walkUp p 15 (nodes p !! i ≫= parentElement)) as [[c container]|];
            intros [H|[H|[H|[H|[]]]]]; discriminate H.
        * intros [H|[H|[H|[]]]]; discriminate H. }
  destruct Hq as (e & Hq & Hhtml). pose proof Hq as Hf. unfold querySelector in Hf.
  apply find_first in Hf as (before & after & Hsplit & Hm & Hb).
  exists e, before, after. split; [done|]. split; [by apply matchesNextButton_spec|]. split.
  - intros w Hw Hl. apply matchesNextButton_spec in Hl. specialize (Hb w Hw). simpl in Hb. congruence.
  - by rewrite V13_scrollToNextReel_cases, V12_scrollToNextReel_cases, Hq, Hhtml.
Qed.

Lemma X12_first_labelled_element_is_clicked_witness :
  ∃ e before after, elements buttonPage = before ++ (12%nat, e) :: after ∧ labelledNext e ∧
    (∀ w, In w before → ¬ labelledNext (snd w)) ∧
    actions (trace (V13.scrollToNextReel buttonPage)) = [Click 12] ∧
    actions (trace (V12.scrollToNextReel {| target := None |} buttonPage)) = [Click 12].
Proof.
  apply (X12_first_labelled_element_is_clicked buttonPage {| target := None |} 12).
  left. vm_compute. tauto.
Defined.

Lemma currentVideo_lookup p i video :
  V13.currentVideo p = Some (i, video) → nodes p !! i = Some video.
Proof. intros H. by destruct (currentVideo_firstMaximum p i video H) as ([_ Hv] & _). Qed.

(** X13. The two revisions compared on an ended event of the video that the
    scan selects.  They make the same feed-moving request (the same click,
    or the same container scroll), except when no element is labelled Next
    and none of the video's fifteen nearest ancestors overflows: there v1.2
    scrolls the window by [innerHeight] and v1.3 requests nothing. *)
Theorem X13_revisions_agree_except_on_the_fallback (p : page) (i : nat) (video : element) :
  V13.currentVideo p = Some (i, video) →
  (actions (trace (V13.scrollToNextReel p)) = actions (trace (V12.scrollToNextReel {| target := Some i |} p)) ∧
   ¬ (noNextButton p ∧ noneOverflowing p 15 (parentElement video))) ∨
  (noNextButton p ∧ noneOverflowing p 15 (parentElement video) ∧
   actions (trace (V13.scrollToNextReel p)) = [] ∧
   actions (trace (V12.scrollToNextReel {| target := Some i |} p)) = [WindowScrollBy 0 (innerHeight p)]).
Proof.
  intros Hcur. pose proof (currentVideo_lookup p i video Hcur) as Hv.
  rewrite V13_scrollToNextReel_cases, V12_scrollToNextReel_cases. unfold V12.currentVideo.
  cbv [target]. rewrite Hcur, Hv.
  change (Some video ≫= parentElement) with (parentElement video).
  destruct (querySelector matchesNextButton p) as [[nb eb]|] eqn:Q.
  - left. split; [by destruct (isHTMLElement eb)|].
    intros [Hno _]. by rewrite (no_next_button p Hno) in Q.
  - cbn [trace fst snd]. destruct (walkUp p 15 (parentElement video)) as [[c container]|] eqn:W.
    + left. split; [done|]. intros [_ Hnone]. by rewrite (walkUp_none p 15 _ Hnone) in W.
    + right. split; [exact (no_next_button_inv p Q)|]. split; [by apply walkUp_none_inv|]. done.
Qed.

Lemma X13_revisions_agree_except_on_the_fallback_witness :
  actions (trace (V13.scrollToNextReel plainPage)) = [] ∧
  actions (trace (V12.scrollToNextReel {| target := Some 11%nat |} plainPage)) = [WindowScrollBy 0 800] ∧
  actions (trace (V13.scrollToNextReel feedPage)) =
    actions (trace (V12.scrollToNextReel {| target := Some 11%nat |} feedPage)).
Proof.
  destruct (X13_revisions_agree_except_on_the_fallback plainPage 11 plainVideo)
    as [[_ Hnot]|(_ & _ & H13 & H12)].
  - vm_compute. reflexivity.
  - destruct Hnot. split.
    + unfold noNextButton. apply no_next_button_inv. vm_compute. reflexivity.
    + apply walkUp_none_inv. vm_compute. reflexivity.
  - split; [exact H13|]. split; [exact H12|].
    destruct (X13_revisions_agree_except_on_the_fallback feedPage 11 feedVideo)
      as [[Hsame _]|(_ & Hnone & _)].
    + vm_compute. reflexivity.
    + exact Hsame.
    + apply walkUp_none in Hnone. vm_compute in Hnone. discriminate Hnone.
Defined.
